(** * one-tab-manager: storage, dedup and backup logic

    A shallow embedding of [storage.ts] (getSavedTabs, saveTabs, deleteTab,
    clearAllTabs), [types.ts] (SavedTab) and the backup part of
    [background.ts] (getSavedTabsForBackground, performBackup), followed by
    the properties of the tab record manager and the backup scheduler.

    [chrome.storage.local] is modelled as a finite map from keys to stored
    arrays, together with the trace of the mutating calls made on it and the
    lines printed on the console.  Every exported function is an [async]
    function made of sequential [await]s; it is modelled as a state
    transformer over that world, run without interleaving.  The platform
    calls are taken to succeed: quota and permission failures are outside
    the model.  The clock and the random number generator are inputs of
    [saveTabs]. *)

From Stdlib Require Import ZArith String Ascii List Sorted Permutation Lia.
From stdpp Require Import base option list strings gmap pretty sorting.

Local Open Scope string_scope.
Local Open Scope list_scope.
Local Open Scope Z_scope.

(** ** types.ts *)

(** [interface SavedTab]; [favIconUrl?] is an optional property and
    [savedAt] a millisecond timestamp. *)
Record SavedTab := mkSavedTab {
  id : string;
  url : string;
  title : string;
  favIconUrl : option string;
  savedAt : Z
}.

(** [Omit<SavedTab, "id" | "savedAt">], the element type of the argument of
    [saveTabs]. *)
Module ToSave.
Record t := mk {
  url : string;
  title : string;
  favIconUrl : option string
}.
End ToSave.

(** What a call resolves to.  An [async] arrow function without a [return]
    statement resolves to [undefined]. *)
Inductive js_value :=
  | undefined
  | number (n : Z).

(** ** The platform: chrome.storage.local and the console *)

Inductive storage_call :=
  | call_set (key : string) (value : list SavedTab)
  | call_remove (key : string).

Record World := mkWorld {
  local : gmap string (list SavedTab);
  calls : list storage_call;
  console : list string
}.

Definition empty_world : World :=
  {| local := ∅; calls := []; console := [] |}.

(** Sequential asynchronous computations over the world. *)
Definition Async (A : Type) : Type := World → A * World.

Definition resolve {A} (a : A) : Async A := λ w, (a, w).

Definition await {A B} (m : Async A) (k : A → Async B) : Async B :=
  λ w, let (a, w') := m w in k a w'.

Notation "'let_await' x := m 'in' k" := (await m (λ x, k))
  (at level 10, x name, m at level 100, k at level 200, only parsing).
Notation "'do_await' m 'in' k" := (await m (λ _, k))
  (at level 10, m at level 100, k at level 200, only parsing).

(** [chrome.storage.local.get(key)]: the property [result[key]], which is
    [undefined] ([None]) when the key was never written.  The array handed
    out is a copy: sorting it in place does not touch the storage area. *)
Definition storage_local_get (key : string) : Async (option (list SavedTab)) :=
  λ w, (local w !! key, w).

(** [chrome.storage.local.set({ [key]: value })]. *)
Definition storage_local_set (key : string) (value : list SavedTab) : Async unit :=
  λ w, (tt, {| local := <[key := value]> (local w);
               calls := calls w ++ [call_set key value];
               console := console w |}).

(** [chrome.storage.local.remove(key)]. *)
Definition storage_local_remove (key : string) : Async unit :=
  λ w, (tt, {| local := delete key (local w);
               calls := calls w ++ [call_remove key];
               console := console w |}).

Definition console_log (line : string) : Async unit :=
  λ w, (tt, {| local := local w; calls := calls w;
               console := console w ++ [line] |}).

(** ** Array.prototype.sort

    [sort] with a comparator [cmp]: [a] is kept before [b] unless
    [cmp a b > 0].  The sort is stable (ECMAScript 2019 and later), so it is
    modelled by a stable insertion sort. *)
Section Array_sort.
Context {A : Type} (cmp : A → A → Z).

Fixpoint sort_insert (x : A) (l : list A) : list A :=
  match l with
  | [] => [x]
  | y :: l' => if decide (cmp x y ≤ 0) then x :: y :: l'
               else y :: sort_insert x l'
  end.

Fixpoint Array_sort (l : list A) : list A :=
  match l with
  | [] => []
  | x :: l' => sort_insert x (Array_sort l')
  end.
End Array_sort.

(** ** storage.ts *)

Definition STORAGE_KEY : string := "savedTabs".

(** The comparator [(a, b) => b.savedAt - a.savedAt]. *)
Definition by_savedAt_desc (a b : SavedTab) : Z := savedAt b - savedAt a.

Definition getSavedTabs : Async (list SavedTab) :=
  let_await result := storage_local_get STORAGE_KEY in
  let tabs := default [] result in
  resolve (Array_sort by_savedAt_desc tabs).

(** The template literal [`${now}-${index}-${suffix}`], where [suffix] is
    the value of [Math.random().toString(36).substring(2, 9)].  [Date.now()]
    and the index are integers that print as plain decimal digits. *)
Definition make_id (now : Z) (index : nat) (suffix : string) : string :=
  pretty now +:+ "-" +:+ pretty index +:+ "-" +:+ suffix.

(** The callback of [tabsToSave.map]: the object literal
    [{ ...tab, id: ..., savedAt: now }]. *)
Definition new_tab (now : Z) (random : nat → string)
    (index : nat) (tab : ToSave.t) : SavedTab :=
  {| id := make_id now index (random index);
     url := ToSave.url tab;
     title := ToSave.title tab;
     favIconUrl := ToSave.favIconUrl tab;
     savedAt := now |}.

Definition newTabs (now : Z) (random : nat → string)
    (tabsToSave : list ToSave.t) : list SavedTab :=
  imap (new_tab now random) tabsToSave.

(** [existingTabs.some((existingTab) => existingTab.url === newTab.url)]. *)
Definition url_exists (existingTabs : list SavedTab) (newTab : SavedTab) : Prop :=
  Exists (λ existingTab, url existingTab = url newTab) existingTabs.

Definition uniqueNewTabs (existingTabs newTabs : list SavedTab) : list SavedTab :=
  filter (λ newTab, ¬ url_exists existingTabs newTab) newTabs.

(** [saveTabs]; [now] is the value of [Date.now()] and [random index] the
    random suffix drawn for the candidate at position [index]. *)
Definition saveTabs (now : Z) (random : nat → string)
    (tabsToSave : list ToSave.t) : Async js_value :=
  let_await existingTabs := getSavedTabs in
  let newTabs := newTabs now random tabsToSave in
  let uniqueNewTabs := uniqueNewTabs existingTabs newTabs in
  let updatedTabs := uniqueNewTabs ++ existingTabs in
  do_await storage_local_set STORAGE_KEY updatedTabs in
  do_await console_log
    ("Saved " +:+ pretty (length uniqueNewTabs) +:+ " new tabs.") in
  resolve undefined.

Definition deleteTab (tabId : string) : Async js_value :=
  let_await existingTabs := getSavedTabs in
  let updatedTabs := filter (λ tab, id tab ≠ tabId) existingTabs in
  do_await storage_local_set STORAGE_KEY updatedTabs in
  do_await console_log ("Deleted tab with ID: " +:+ tabId) in
  resolve undefined.

Definition clearAllTabs : Async js_value :=
  do_await storage_local_remove STORAGE_KEY in
  do_await console_log "Cleared all saved tabs." in
  resolve undefined.

(** ** background.ts *)

Definition BACKUP_STORAGE_KEY : string := "savedTabs_backup".

Definition getSavedTabsForBackground : Async (list SavedTab) :=
  let_await result := storage_local_get STORAGE_KEY in
  let tabs := default [] result in
  resolve (Array_sort by_savedAt_desc tabs).

(** [performBackup]; [t0] and [t1] are the values of the two evaluations of
    [new Date().toISOString()] on the path taken.  The model of the storage
    area never throws, so the [catch] branch is not reachable in it. *)
Definition performBackup (t0 t1 : string) : Async js_value :=
  do_await console_log ("[" +:+ t0 +:+ "] Performing scheduled backup...") in
  let_await tabs := getSavedTabsForBackground in
  if decide (0 < length tabs)%nat then
    do_await storage_local_set BACKUP_STORAGE_KEY tabs in
    do_await console_log
      ("[" +:+ t1 +:+ "] Backup completed. " +:+ pretty (length tabs)
       +:+ " tabs saved to key: " +:+ BACKUP_STORAGE_KEY) in
    resolve undefined
  else
    do_await console_log ("[" +:+ t1 +:+ "] No tabs to backup.") in
    resolve undefined.

(** ** Observations on the world *)

(** Newest first: the order [getSavedTabs] promises. *)
Definition newest_first (a b : SavedTab) : Prop := savedAt b ≤ savedAt a.

Global Instance newest_first_dec a b : Decision (newest_first a b) :=
  Z.le_dec (savedAt b) (savedAt a).

(** The array held under the live key, [[]] when the key is absent. *)
Definition stored (w : World) : list SavedTab :=
  default [] (local w !! STORAGE_KEY).

(** What [getSavedTabs] resolves to in world [w]. *)
Definition getAll (w : World) : list SavedTab := (getSavedTabs w).1.

(** The world a computation leaves behind. *)
Definition after {A} (m : Async A) (w : World) : World := (m w).2.

(** Strings without the separator ["-"]. *)
Fixpoint dash_free (s : string) : Prop :=
  match s with
  | EmptyString => True
  | String a s' => a ≠ "-"%char ∧ dash_free s'
  end.

(** The candidate's url is the url of a record of [existingTabs]. *)
Definition url_known (existingTabs : list SavedTab) (tab : ToSave.t) : Prop :=
  Exists (λ existingTab, url existingTab = ToSave.url tab) existingTabs.

Global Instance url_known_dec existingTabs tab :
  Decision (url_known existingTabs tab) :=
  Exists_dec (λ existingTab, url existingTab = ToSave.url tab) existingTabs.

(** Following the spec: the surviving new records of a batch.  The
    candidates are taken in batch order, [index] being the position of the
    first one; a candidate whose url is the url of a record of [live] is
    dropped, and for any other candidate the record made for it at its
    position is kept. *)
Fixpoint deduped_new_records (live : list SavedTab) (now : Z)
    (random : nat → string) (index : nat) (tabsToSave : list ToSave.t)
    : list SavedTab :=
  match tabsToSave with
  | [] => []
  | tab :: tabsToSave' =>
      if decide (url_known live tab)
      then deduped_new_records live now random (S index) tabsToSave'
      else new_tab now random index tab
           :: deduped_new_records live now random (S index) tabsToSave'
  end.

(** ** Sequences of calls *)

(** One call of the tab record manager, with the time and the random
    suffixes a [saveTabs] call draws. *)
Inductive Op :=
  | op_save (now : Z) (random : nat → string) (tabsToSave : list ToSave.t)
  | op_delete (tabId : string).

(** The calls of a sequence are awaited one after the other. *)
Definition run_op (op : Op) : Async js_value :=
  match op with
  | op_save now random tabsToSave => saveTabs now random tabsToSave
  | op_delete tabId => deleteTab tabId
  end.

Fixpoint run_ops (ops : list Op) : Async unit :=
  match ops with
  | [] => resolve tt
  | op :: ops' => do_await run_op op in run_ops ops'
  end.

(** The records the specification expects after [ops], starting from the
    records [live]: a save adds the records it creates for the candidates
    whose url is not live, a delete removes the records with the given
    [id], and nothing else touches a record. *)
Fixpoint surviving (ops : list Op) (live : list SavedTab) : list SavedTab :=
  match ops with
  | [] => live
  | op_save now random tabsToSave :: ops' =>
      surviving ops'
        (filter (λ t, ¬ url_exists live t) (newTabs now random tabsToSave)
         ++ live)
  | op_delete tabId :: ops' =>
      surviving ops' (filter (λ t, id t ≠ tabId) live)
  end.

(** Record [r] was created by a save call of [ops] run from [w], for a
    candidate whose url was not stored at that call, with the [id] and
    [savedAt] that call assigned, and no later call of [ops] deletes its
    [id]. *)
Definition created_and_kept (w : World) (ops : list Op) (r : SavedTab) : Prop :=
  ∃ before now random tabsToSave later index tab,
    ops = before ++ op_save now random tabsToSave :: later ∧
    tabsToSave !! index = Some tab ∧
    ¬ url_known (stored (after (run_ops before) w)) tab ∧
    r = new_tab now random index tab ∧
    id r = make_id now index (random index) ∧
    savedAt r = now ∧
    Forall (λ op, op ≠ op_delete (id r)) later.

(** ** Sample data *)

(** Stored records, candidates and random suffixes for the concrete
    instances. *)
Definition tab_a : SavedTab :=
  {| id := "5-0-k3x9q"; url := "https://a.com"; title := "A";
     favIconUrl := None; savedAt := 5 |}.
Definition tab_b : SavedTab :=
  {| id := "3-0-p07ab"; url := "https://b.com"; title := "B";
     favIconUrl := Some "https://b.com/favicon.ico"; savedAt := 3 |}.
Definition tab_c : SavedTab :=
  {| id := "5-1-zz81c"; url := "https://c.com"; title := "C";
     favIconUrl := None; savedAt := 5 |}.

Definition cand_a : ToSave.t := ToSave.mk "https://a.com" "A2" None.
Definition cand_A : ToSave.t := ToSave.mk "https://A.com" "A3" None.
Definition cand_d : ToSave.t := ToSave.mk "https://d.com" "D" None.

Definition some_suffix (index : nat) : string :=
  match index with O => "q1w2e3r" | _ => "a9b8c7d" end.

(** A world whose live key holds [tabs]. *)
Definition world_with (tabs : list SavedTab) : World :=
  {| local := {[ STORAGE_KEY := tabs ]}; calls := []; console := [] |}.

(** A world whose live key was never written, with a backup snapshot. *)
Definition world_with_backup_only (snapshot : list SavedTab) : World :=
  {| local := {[ BACKUP_STORAGE_KEY := snapshot ]}; calls := [];
     console := [] |}.

(** A world with a live collection and a backup snapshot. *)
Definition world_with_backup (tabs snapshot : list SavedTab) : World :=
  {| local := <[ BACKUP_STORAGE_KEY := snapshot ]> {[ STORAGE_KEY := tabs ]};
     calls := []; console := [] |}.

(** A live collection that is not stored newest first. *)
Definition world_out_of_order : World := world_with [tab_b; tab_a; tab_c].

(** ** Sequences of calls: clock and batches *)

(** The values of [Date.now()] read by the [saveTabs] calls of a sequence,
    in call order. *)
Fixpoint save_times (ops : list Op) : list Z :=
  match ops with
  | [] => []
  | op_save now _ _ :: ops' => now :: save_times ops'
  | op_delete _ :: ops' => save_times ops'
  end.

(** The batch of a save call has no two candidates with one url. *)
Definition batch_urls_distinct (op : Op) : Prop :=
  match op with
  | op_save _ _ tabsToSave => NoDup (ToSave.url <$> tabsToSave)
  | op_delete _ => True
  end.

Global Instance batch_urls_distinct_dec op : Decision (batch_urls_distinct op) :=
  match op with
  | op_save _ _ tabsToSave => NoDup_dec (ToSave.url <$> tabsToSave)
  | op_delete _ => left I
  end.

(** The [id] of [r] was made by a save call at one of the [times]. *)
Definition id_stamped (times : list Z) (r : SavedTab) : Prop :=
  ∃ now index suffix,
    now ∈ times ∧ 0 ≤ now ∧ id r = make_id now index suffix.

(** ** background.ts: the event listeners *)

Definition BACKUP_ALARM_NAME : string := "dailyBackupTabs".

(** The listener of [chrome.alarms.onAlarm], called with [alarm.name]. *)
Definition onAlarm (alarm_name : string) (t0 t1 : string) : Async js_value :=
  if decide (alarm_name = BACKUP_ALARM_NAME) then
    do_await performBackup t0 t1 in
    resolve undefined
  else resolve undefined.

(** The background page: the storage world and the alarms registered with
    [chrome.alarms], each with its [periodInMinutes]. *)
Record Background := mkBackground {
  bg_world : World;
  alarms : gmap string Z
}.

(** The listener of [chrome.runtime.onInstalled], called with
    [details.reason]: [chrome.alarms.clear], [chrome.alarms.create] with
    [periodInMinutes: 60 * 24], and a backup on the first installation. *)
Definition onInstalled (reason : string) (t0 t1 : string)
    (b : Background) : Background :=
  let w1 := after (console_log
              ("Extension installed or updated. Reason: " +:+ reason))
              (bg_world b) in
  let cleared := delete BACKUP_ALARM_NAME (alarms b) in
  let created := <[BACKUP_ALARM_NAME := 60 * 24]> cleared in
  let w2 := after (console_log
              ("Backup alarm '" +:+ BACKUP_ALARM_NAME
               +:+ "' created/updated. Period: 24 hours.")) w1 in
  let w3 :=
    if decide (reason = "install") then
      after (do_await console_log "Performing initial backup on install..." in
             performBackup t0 t1) w2
    else w2 in
  {| bg_world := w3; alarms := created |}.

(** ** popup.tsx *)

(** The properties of [chrome.tabs.Tab] the popup reads. *)
Module ChromeTab.
Record t := mk {
  id : option Z;
  url : option string;
  title : option string;
  favIconUrl : option string;
  discarded : bool
}.
End ChromeTab.

Module Popup.

(** [chrome.tabs.QueryInfo], with the properties [buildTabsQuery] sets. *)
Record QueryInfo := mkQueryInfo {
  active : option bool;
  currentWindow : option bool;
  windowType : option string
}.

Definition buildTabsQuery (type : string) : QueryInfo :=
  if decide (type = "current") then
    {| active := Some true; currentWindow := Some true; windowType := None |}
  else if decide (type = "inactive") then
    {| active := Some false; currentWindow := None;
       windowType := Some "normal" |}
  else
    {| active := None; currentWindow := None; windowType := Some "normal" |}.

(** [tab.url && !tab.url.startsWith("chrome://newtab")]: an absent and an
    empty url are both falsy. *)
Definition has_savable_url (tab : ChromeTab.t) : Prop :=
  match ChromeTab.url tab with
  | Some u => u ≠ "" ∧ String.prefix "chrome://newtab" u = false
  | None => False
  end.

Global Instance has_savable_url_dec tab : Decision (has_savable_url tab) :=
  match ChromeTab.url tab as o
    return Decision (match o with
                     | Some u => u ≠ "" ∧ String.prefix "chrome://newtab" u = false
                     | None => False
                     end)
  with
  | Some u => and_dec (not_dec (decide (u = ""))) (decide (_ = false))
  | None => False_dec
  end.

(** The tabs that are saved and closed: [tabs] is the result of
    [chrome.tabs.query]. *)
Definition filteredTabs (type : string) (tabs : list ChromeTab.t)
    : list ChromeTab.t :=
  let tabs :=
    if decide (type = "inactive")
    then filter (λ tab, ChromeTab.discarded tab = true) tabs
    else tabs in
  filter has_savable_url tabs.

(** The object literal [{ url: tab.url!, title: tab.title || "No Title",
    favIconUrl: tab.favIconUrl }]. *)
Definition tabData (tab : ChromeTab.t) : ToSave.t :=
  {| ToSave.url := default "" (ChromeTab.url tab);
     ToSave.title :=
       match ChromeTab.title tab with
       | Some t => if decide (t = "") then "No Title" else t
       | None => "No Title"
       end;
     ToSave.favIconUrl := ChromeTab.favIconUrl tab |}.

(** The popup: the storage world, the calls of [chrome.tabs.remove] made,
    each with its array of tab identifiers, and the [loading] state. *)
Record State := mkState {
  world : World;
  removed : list (list (option Z));
  loading : option string
}.

(** [handleSaveTabs(type)]; [query] answers [chrome.tabs.query], [now] and
    [random] are the clock and the random suffixes [saveTabs] draws.  The
    [setLoading(type)] made on entry is replaced by the [setLoading(null)]
    of the [finally] block; the platform calls do not throw in this model,
    so the [catch] block is not entered. *)
Definition handleSaveTabs (type : string)
    (query : QueryInfo → list ChromeTab.t)
    (now : Z) (random : nat → string) (p : State) : State :=
  let tabsToQuery := buildTabsQuery type in
  let tabs := query tabsToQuery in
  let filteredTabs := filteredTabs type tabs in
  if decide (0 < length filteredTabs)%nat then
    let tabsData := tabData <$> filteredTabs in
    let w1 := after (saveTabs now random tabsData) (world p) in
    let tabsToCloseIds := ChromeTab.id <$> filteredTabs in
    let w2 := after (console_log
                ("Successfully saved " +:+ pretty (length tabsData)
                 +:+ " tabs.")) w1 in
    if decide (0 < length tabsToCloseIds)%nat then
      {| world := after (console_log
                   ("Closed " +:+ pretty (length tabsToCloseIds)
                    +:+ " tabs.")) w2;
         removed := removed p ++ [tabsToCloseIds];
         loading := None |}
    else {| world := w2; removed := removed p; loading := None |}
  else
    {| world := after (console_log ("No tabs to save for type: " +:+ type))
                  (world p);
       removed := removed p;
       loading := None |}.

End Popup.

(** ** options.tsx *)

(** [String.prototype.toLowerCase] and [String.prototype.trim], taken as
    given. *)
Class JsString := {
  toLowerCase : string → string;
  trim : string → string
}.

(** [s.includes(searchString)]: [searchString] occurs in [s]. *)
Fixpoint includes (s searchString : string) : bool :=
  String.prefix searchString s
  || match s with
     | EmptyString => false
     | String _ s' => includes s' searchString
     end.

(** [Array.prototype.slice(start, end)]: a negative index counts from the
    end, and both indices are clamped to the array. *)
Definition slice_index (len i : Z) : Z :=
  if decide (i < 0) then Z.max (len + i) 0 else Z.min i len.

Definition Array_slice {A} (start end_ : Z) (l : list A) : list A :=
  let len := Z.of_nat (length l) in
  let k := slice_index len start in
  let final := slice_index len end_ in
  take (Z.to_nat (final - k)) (drop (Z.to_nat k) l).

(** [Math.ceil(n / d)] for a count [n] and a positive [d]. *)
Definition Math_ceil_div (n d : Z) : Z := (n + d - 1) / d.

Definition ITEMS_PER_PAGE : Z := 20.

Module Options.

(** The state hooks of [OptionsPage].  A handler is modelled together
    with the effect its state update triggers, so a state is the one
    reached when React has run the effects. *)
Record State := mkState {
  allTabs : list SavedTab;
  filteredTabs : list SavedTab;
  searchTerm : string;
  currentPage : Z;
  loading : bool;
  error : option string
}.

(** The predicate of the search: the lower-cased title or url includes the
    term. *)
Definition matches `{JsString} (lowerCaseSearchTerm : string)
    (tab : SavedTab) : Prop :=
  includes (toLowerCase (title tab)) lowerCaseSearchTerm
  || includes (toLowerCase (url tab)) lowerCaseSearchTerm = true.

Global Instance matches_dec `{JsString} term tab : Decision (matches term tab) :=
  decide (_ = true).

(** The effect that depends on [searchTerm] and [allTabs]. *)
Definition search_effect `{JsString} (st : State) : State :=
  let lowerCaseSearchTerm := trim (toLowerCase (searchTerm st)) in
  if decide (lowerCaseSearchTerm = "") then
    {| allTabs := allTabs st; filteredTabs := allTabs st;
       searchTerm := searchTerm st; currentPage := currentPage st;
       loading := loading st; error := error st |}
  else
    let results := filter (matches lowerCaseSearchTerm) (allTabs st) in
    {| allTabs := allTabs st; filteredTabs := results;
       searchTerm := searchTerm st; currentPage := 1;
       loading := loading st; error := error st |}.

(** The [onChange] handler of the search box, [setSearchTerm(value)], with
    the effect it triggers when the term changes. *)
Definition setSearchTerm `{JsString} (value : string) (st : State) : State :=
  if decide (value = searchTerm st) then st
  else search_effect
         {| allTabs := allTabs st; filteredTabs := filteredTabs st;
            searchTerm := value; currentPage := currentPage st;
            loading := loading st; error := error st |}.

(** [fetchTabs], with the effect the new [allTabs] triggers. *)
Definition fetchTabs `{JsString} (st : State) : Async State :=
  let_await tabs := getSavedTabs in
  resolve (search_effect
             {| allTabs := tabs; filteredTabs := tabs;
                searchTerm := searchTerm st; currentPage := currentPage st;
                loading := false; error := None |}).

(** [handleDelete(tabId)]: the optimistic update of [allTabs], with the
    effect it triggers, and the call of [deleteTab]. *)
Definition handleDelete `{JsString} (tabId : string) (st : State)
    : Async State :=
  let st' := search_effect
      {| allTabs := filter (λ tab, id tab ≠ tabId) (allTabs st);
         filteredTabs := filteredTabs st;
         searchTerm := searchTerm st; currentPage := currentPage st;
         loading := loading st; error := error st |} in
  do_await deleteTab tabId in
  resolve st'.

(** [handlePageChange(event, value)]. *)
Definition handlePageChange (value : Z) (st : State) : State :=
  {| allTabs := allTabs st; filteredTabs := filteredTabs st;
     searchTerm := searchTerm st; currentPage := value;
     loading := loading st; error := error st |}.

(** The memo [paginatedTabs]. *)
Definition paginatedTabs (st : State) : list SavedTab :=
  let startIndex := (currentPage st - 1) * ITEMS_PER_PAGE in
  let endIndex := startIndex + ITEMS_PER_PAGE in
  Array_slice startIndex endIndex (filteredTabs st).

(** The memo [pageCount]. *)
Definition pageCount (st : State) : Z :=
  Math_ceil_div (Z.of_nat (length (filteredTabs st))) ITEMS_PER_PAGE.

(** The search results are those of the current term and [allTabs]: the
    state once the effects have run. *)
Definition settled `{JsString} (st : State) : Prop :=
  filteredTabs st = filteredTabs (search_effect st).

(** The page shows the stored collection: [allTabs] is what
    [getSavedTabs] returns and the search results are settled. *)
Definition in_sync `{JsString} (st : State) (w : World) : Prop :=
  allTabs st = getAll w ∧ settled st.

End Options.

(** ** More sample data *)

(** A sequence of calls: two saves at different times around a deletion. *)
Definition sample_ops : list Op :=
  [ op_save 6 some_suffix [cand_d; cand_A];
    op_delete "6-0-q1w2e3r";
    op_save 9 some_suffix [cand_a; cand_d] ].

(** Open tabs: a discarded page, an untitled page that is already stored,
    a new-tab page and a tab without url. *)
Definition chrome_tab_d : ChromeTab.t :=
  {| ChromeTab.id := Some 11; ChromeTab.url := Some "https://d.com";
     ChromeTab.title := Some "D"; ChromeTab.favIconUrl := None;
     ChromeTab.discarded := true |}.
Definition chrome_tab_a : ChromeTab.t :=
  {| ChromeTab.id := Some 12; ChromeTab.url := Some "https://a.com";
     ChromeTab.title := Some ""; ChromeTab.favIconUrl := None;
     ChromeTab.discarded := false |}.
Definition chrome_tab_new : ChromeTab.t :=
  {| ChromeTab.id := Some 13; ChromeTab.url := Some "chrome://newtab/";
     ChromeTab.title := Some "New Tab"; ChromeTab.favIconUrl := None;
     ChromeTab.discarded := false |}.
Definition chrome_tab_blank : ChromeTab.t :=
  {| ChromeTab.id := Some 14; ChromeTab.url := None;
     ChromeTab.title := None; ChromeTab.favIconUrl := None;
     ChromeTab.discarded := false |}.

Definition query_some (_ : Popup.QueryInfo) : list ChromeTab.t :=
  [chrome_tab_d; chrome_tab_new; chrome_tab_a; chrome_tab_blank].
Definition query_nothing (_ : Popup.QueryInfo) : list ChromeTab.t :=
  [chrome_tab_new; chrome_tab_blank].

Definition popup_start : Popup.State :=
  {| Popup.world := world_with [tab_a; tab_b]; Popup.removed := [];
     Popup.loading := None |}.

Definition background_start : Background :=
  {| bg_world := world_with [tab_a; tab_b];
     alarms := {[ "otherAlarm" := 5 ]} |}.

(** Lower-casing and trimming of ASCII strings. *)
Definition ascii_lower (c : ascii) : ascii :=
  let n := nat_of_ascii c in
  if decide (65 ≤ n ≤ 90)%nat then ascii_of_nat (n + 32) else c.

Fixpoint ascii_toLowerCase (s : string) : string :=
  match s with
  | EmptyString => EmptyString
  | String c s' => String (ascii_lower c) (ascii_toLowerCase s')
  end.

Fixpoint ascii_trimStart (s : string) : string :=
  match s with
  | EmptyString => EmptyString
  | String c s' => if Ascii.is_space c then ascii_trimStart s' else s
  end.

Definition ascii_trim (s : string) : string :=
  String.rev (ascii_trimStart (String.rev (ascii_trimStart s))).

Definition ascii_strings : JsString :=
  {| toLowerCase := ascii_toLowerCase; trim := ascii_trim |}.

(** Twenty-one stored tabs: one more than a page. *)
Definition twenty_one_tabs : list SavedTab :=
  newTabs 7 some_suffix (replicate 21 cand_d).

Definition options_with (tabs : list SavedTab) (term : string) (page : Z)
    : Options.State :=
  {| Options.allTabs := tabs; Options.filteredTabs := tabs;
     Options.searchTerm := term; Options.currentPage := page;
     Options.loading := false; Options.error := None |}.

(** * Properties *)

(** Closes a decidable statement about concrete data by evaluation. *)
Ltac by_evaluation := apply (bool_decide_unpack _); vm_compute; reflexivity.

(** ** The sort *)

Section sort_facts.
Context {A : Type} (cmp : A → A → Z).

Lemma sort_insert_perm x l : sort_insert cmp x l ≡ₚ x :: l.
Proof.
  induction l as [|y l IH]; simpl; [done|].
  case_decide; [done|]. rewrite IH. apply Permutation_swap.
Qed.

Lemma Array_sort_perm l : Array_sort cmp l ≡ₚ l.
Proof.
  induction l as [|x l IH]; simpl; [done|].
  by rewrite sort_insert_perm, IH.
Qed.

(** Sorting prefixes the sorted tail: the result depends on the tail only
    through its sorted form. *)
Lemma Array_sort_app l1 l2 :
  Array_sort cmp (l1 ++ l2) = foldr (sort_insert cmp) (Array_sort cmp l2) l1.
Proof. induction l1 as [|x l1 IH]; simpl; [done|]. by rewrite IH. Qed.
End sort_facts.

Lemma sort_insert_newest x l :
  Forall (newest_first x) l → sort_insert by_savedAt_desc x l = x :: l.
Proof.
  destruct 1 as [|y l Hxy _]; simpl; [done|].
  unfold newest_first, by_savedAt_desc in *. case_decide; [done|lia].
Qed.

Lemma sort_insert_sorted x l :
  StronglySorted newest_first l →
  StronglySorted newest_first (sort_insert by_savedAt_desc x l).
Proof.
  induction 1 as [|y l Hl IH Hy]; simpl.
  - repeat constructor.
  - case_decide as Hc; unfold by_savedAt_desc in Hc.
    + constructor; [by constructor|].
      constructor; [unfold newest_first; lia|].
      eapply Forall_impl; [exact Hy|]. unfold newest_first. intros; lia.
    + constructor; [done|].
      rewrite sort_insert_perm. constructor; [|done].
      unfold newest_first. lia.
Qed.

Lemma Array_sort_sorted l :
  StronglySorted newest_first (Array_sort by_savedAt_desc l).
Proof.
  induction l as [|x l IH]; simpl; [constructor|].
  by apply sort_insert_sorted.
Qed.

Lemma Array_sort_fixed l :
  StronglySorted newest_first l → Array_sort by_savedAt_desc l = l.
Proof.
  induction 1 as [|x l Hl IH Hx]; simpl; [done|].
  rewrite IH. by apply sort_insert_newest.
Qed.

Lemma Array_sort_idemp l :
  Array_sort by_savedAt_desc (Array_sort by_savedAt_desc l)
  = Array_sort by_savedAt_desc l.
Proof. apply Array_sort_fixed, Array_sort_sorted. Qed.

Lemma StronglySorted_filter {A} (R : relation A) (P : A → Prop)
    `{!∀ x, Decision (P x)} l :
  StronglySorted R l → StronglySorted R (filter P l).
Proof.
  induction 1 as [|x l Hl IH Hx]; [constructor|].
  rewrite filter_cons. case_decide; [|done].
  constructor; [done|].
  apply Forall_forall. intros y [_ Hy]%list_elem_of_filter.
  by eapply Forall_forall in Hx.
Qed.

(** Stability: the records with one and the same [savedAt] keep the order
    they had in the array that was sorted. *)
Lemma sort_insert_stable (k : Z) x l :
  filter (λ t, savedAt t = k) (sort_insert by_savedAt_desc x l)
  = filter (λ t, savedAt t = k) (x :: l).
Proof.
  induction l as [|y l IH]; simpl; [done|].
  case_decide as Hc; [done|]. unfold by_savedAt_desc in Hc.
  rewrite (filter_cons _ y), IH, !filter_cons.
  repeat case_decide; try done; lia.
Qed.

Lemma Array_sort_stable (k : Z) l :
  filter (λ t, savedAt t = k) (Array_sort by_savedAt_desc l)
  = filter (λ t, savedAt t = k) l.
Proof.
  induction l as [|x l IH]; simpl; [done|].
  by rewrite sort_insert_stable, !filter_cons, IH.
Qed.

(** Filtering commutes with the sort. *)
Lemma filter_sort_insert (P : SavedTab → Prop) `{!∀ t, Decision (P t)} x l :
  StronglySorted newest_first l →
  filter P (sort_insert by_savedAt_desc x l)
  = if decide (P x) then sort_insert by_savedAt_desc x (filter P l)
    else filter P l.
Proof.
  induction 1 as [|y l Hl IH Hy]; simpl.
  - rewrite filter_cons, filter_nil. by case_decide.
  - destruct (decide (by_savedAt_desc x y ≤ 0)) as [Hc|Hc].
    + rewrite (filter_cons _ x). case_decide; [|done].
      symmetry. apply sort_insert_newest, Forall_forall.
      intros z [_ Hz]%list_elem_of_filter.
      unfold newest_first, by_savedAt_desc in *.
      apply elem_of_cons in Hz as [->|Hz]; [lia|].
      eapply Forall_forall in Hy; [|done]. lia.
    + rewrite (filter_cons _ y), IH, (filter_cons _ y).
      destruct (decide (P x)), (decide (P y)); simpl; try done.
      by rewrite decide_False.
Qed.

Lemma filter_Array_sort (P : SavedTab → Prop) `{!∀ t, Decision (P t)} l :
  filter P (Array_sort by_savedAt_desc l)
  = Array_sort by_savedAt_desc (filter P l).
Proof.
  induction l as [|x l IH]; simpl; [done|].
  rewrite filter_sort_insert by apply Array_sort_sorted.
  rewrite filter_cons, IH. by case_decide.
Qed.

Lemma Array_sort_app_sorted_tail (l1 l2 : list SavedTab) :
  Array_sort by_savedAt_desc (l1 ++ Array_sort by_savedAt_desc l2)
  = Array_sort by_savedAt_desc (l1 ++ l2).
Proof. by rewrite !Array_sort_app, Array_sort_idemp. Qed.

Lemma Array_sort_eq_perm (l1 l2 : list SavedTab) :
  Array_sort by_savedAt_desc l1 = Array_sort by_savedAt_desc l2 → l1 ≡ₚ l2.
Proof.
  intros Heq. rewrite <-(Array_sort_perm by_savedAt_desc l1), Heq.
  apply Array_sort_perm.
Qed.

(** ** Reading the store *)

Lemma getSavedTabs_run w :
  getSavedTabs w = (Array_sort by_savedAt_desc (stored w), w).
Proof. reflexivity. Qed.

Lemma getAll_sort w : getAll w = Array_sort by_savedAt_desc (stored w).
Proof. reflexivity. Qed.

Lemma getAll_perm w : getAll w ≡ₚ stored w.
Proof. rewrite getAll_sort. apply Array_sort_perm. Qed.

Lemma getAll_sorted w : StronglySorted newest_first (getAll w).
Proof. rewrite getAll_sort. apply Array_sort_sorted. Qed.

Lemma getSavedTabsForBackground_run w :
  getSavedTabsForBackground w = (getAll w, w).
Proof. reflexivity. Qed.

Lemma saveTabs_run now random tabsToSave w :
  saveTabs now random tabsToSave w =
    let added := uniqueNewTabs (getAll w) (newTabs now random tabsToSave) in
    (undefined,
     {| local := <[STORAGE_KEY := added ++ getAll w]> (local w);
        calls := calls w ++ [call_set STORAGE_KEY (added ++ getAll w)];
        console := console w
          ++ ["Saved " +:+ pretty (length added) +:+ " new tabs."] |}).
Proof. reflexivity. Qed.

Lemma deleteTab_run tabId w :
  deleteTab tabId w =
    let kept := filter (λ tab, id tab ≠ tabId) (getAll w) in
    (undefined,
     {| local := <[STORAGE_KEY := kept]> (local w);
        calls := calls w ++ [call_set STORAGE_KEY kept];
        console := console w ++ ["Deleted tab with ID: " +:+ tabId] |}).
Proof. reflexivity. Qed.

Lemma stored_saveTabs now random tabsToSave w :
  stored (after (saveTabs now random tabsToSave) w)
  = uniqueNewTabs (getAll w) (newTabs now random tabsToSave) ++ getAll w.
Proof.
  unfold after, stored. rewrite saveTabs_run. simpl.
  by rewrite lookup_insert_eq.
Qed.

Lemma stored_deleteTab tabId w :
  stored (after (deleteTab tabId) w)
  = filter (λ tab, id tab ≠ tabId) (getAll w).
Proof.
  unfold after, stored. rewrite deleteTab_run. simpl.
  by rewrite lookup_insert_eq.
Qed.

Lemma getAll_deleteTab tabId w :
  getAll (after (deleteTab tabId) w)
  = filter (λ tab, id tab ≠ tabId) (getAll w).
Proof.
  rewrite getAll_sort, stored_deleteTab.
  apply Array_sort_fixed, StronglySorted_filter, getAll_sorted.
Qed.

Lemma filter_all {A} (P : A → Prop) `{!∀ x, Decision (P x)} (l : list A) :
  Forall P l → filter P l = l.
Proof.
  induction 1 as [|x l Hx _ IH]; [done|].
  by rewrite filter_cons_True, IH.
Qed.

Lemma filter_none {A} (P : A → Prop) `{!∀ x, Decision (P x)} (l : list A) :
  Forall (λ x, ¬ P x) l → filter P l = [].
Proof.
  induction 1 as [|x l Hx _ IH]; [done|].
  by rewrite filter_cons_False, IH.
Qed.

(** ** getSavedTabs *)

(** C5: [getSavedTabs] resolves to the empty array when the live key was
    never written, and whatever is stored, the array it resolves to holds
    the stored records, each as often as it is stored, in descending
    [savedAt] order: each element's [savedAt] is at least that of the
    element after it (and of every later one).  The read leaves the store
    as it was. *)
Theorem getSavedTabs_empty_and_sorted (w : World) :
  (local w !! STORAGE_KEY = None → (getSavedTabs w).1 = []) ∧
  (getSavedTabs w).1 ≡ₚ default [] (local w !! STORAGE_KEY) ∧
  Sorted newest_first (getSavedTabs w).1 ∧
  StronglySorted newest_first (getSavedTabs w).1 ∧
  (getSavedTabs w).2 = w.
Proof.
  rewrite getSavedTabs_run. simpl. split_and!.
  - intros Hnone. unfold stored. by rewrite Hnone.
  - apply Array_sort_perm.
  - apply StronglySorted_Sorted, Array_sort_sorted.
  - apply Array_sort_sorted.
  - done.
Qed.

Lemma getSavedTabs_empty_and_sorted_witness :
  local (world_with_backup_only [tab_b; tab_a]) !! STORAGE_KEY = None ∧
  (getSavedTabs (world_with_backup_only [tab_b; tab_a])).1 = [].
Proof.
  split; [done|].
  apply (proj1 (getSavedTabs_empty_and_sorted
                  (world_with_backup_only [tab_b; tab_a]))). done.
Defined.

(** ** Identifiers *)

Lemma dash_free_prefix s1 s2 r1 r2 :
  dash_free s1 → dash_free s2 →
  s1 +:+ "-" +:+ r1 = s2 +:+ "-" +:+ r2 → s1 = s2.
Proof.
  revert s2. induction s1 as [|a s1 IH]; intros [|b s2]; simpl.
  - done.
  - intros _ [Hb _] [= <- _]. done.
  - intros [Ha _] _ [= -> _]. done.
  - intros [_ H1] [_ H2] [= -> Heq]. f_equal. by apply IH.
Qed.

Lemma pretty_N_go_dash_free x s : dash_free s → dash_free (pretty_N_go x s).
Proof.
  revert s. induction (N.lt_wf_0 x) as [x _ IH]; intros s Hs.
  assert (x = 0 ∨ 0 < x)%N as [->|Hx] by lia.
  - by rewrite pretty_N_go_0.
  - rewrite pretty_N_go_step by done. apply IH.
    { by apply N.div_lt. }
    simpl. split; [|done].
    unfold pretty_N_char. by repeat case_match.
Qed.

Lemma pretty_nat_dash_free (n : nat) : dash_free (pretty n).
Proof.
  unfold pretty, pretty_nat, pretty, pretty_N.
  case_decide; [by simpl|]. by apply pretty_N_go_dash_free.
Qed.

(** Two identifiers made in one call agree only if they were made for the
    same position of the batch, whatever the random suffixes are. *)
Lemma make_id_index now i j s1 s2 :
  make_id now i s1 = make_id now j s2 → i = j.
Proof.
  unfold make_id. intros Heq.
  apply (inj (String.append (pretty now))) in Heq.
  injection Heq as Heq.
  apply dash_free_prefix in Heq; auto using pretty_nat_dash_free.
  by apply (inj pretty) in Heq.
Qed.

Lemma newTabs_lookup now random tabsToSave i :
  newTabs now random tabsToSave !! i
  = new_tab now random i <$> tabsToSave !! i.
Proof. apply list_lookup_imap. Qed.

Lemma elem_of_newTabs now random tabsToSave t :
  t ∈ newTabs now random tabsToSave ↔
  ∃ i tab, tabsToSave !! i = Some tab ∧ t = new_tab now random i tab.
Proof.
  rewrite list_elem_of_lookup. setoid_rewrite newTabs_lookup. split.
  - intros [i Hi]. destruct (tabsToSave !! i) as [tab|] eqn:E; [|done].
    exists i, tab. by simplify_eq/=.
  - intros (i & tab & Hi & ->). exists i. by rewrite Hi.
Qed.

Lemma newTabs_NoDup_id now random tabsToSave :
  NoDup (id <$> newTabs now random tabsToSave).
Proof.
  apply NoDup_alt. intros i j s.
  rewrite !list_lookup_fmap, !newTabs_lookup.
  destruct (tabsToSave !! i) as [a|], (tabsToSave !! j) as [b|]; simpl; try done.
  intros [= <-] [= Heq]. by apply make_id_index in Heq.
Qed.

(** ** New records *)

(** C9: in one [saveTabs] call every record created carries the call's
    [now] as [savedAt]; the record made for position [i] has the identifier
    [now-i-suffix]; and the identifiers made in the call are pairwise
    distinct, among all created records and so among those that are
    persisted. *)
Theorem newTabs_same_savedAt_distinct_ids now random tabsToSave existingTabs :
  Forall (λ t, savedAt t = now) (newTabs now random tabsToSave) ∧
  (∀ i, newTabs now random tabsToSave !! i
        = (λ tab, {| id := pretty now +:+ "-" +:+ pretty i +:+ "-" +:+ random i;
                     url := ToSave.url tab;
                     title := ToSave.title tab;
                     favIconUrl := ToSave.favIconUrl tab;
                     savedAt := now |}) <$> tabsToSave !! i) ∧
  NoDup (id <$> newTabs now random tabsToSave) ∧
  Forall (λ t, savedAt t = now)
    (uniqueNewTabs existingTabs (newTabs now random tabsToSave)) ∧
  NoDup (id <$> uniqueNewTabs existingTabs (newTabs now random tabsToSave)).
Proof.
  assert (Hall : Forall (λ t, savedAt t = now) (newTabs now random tabsToSave)).
  { apply Forall_forall. by intros t (i & tab & _ & ->)%elem_of_newTabs. }
  split_and!.
  - done.
  - intros i. apply newTabs_lookup.
  - apply newTabs_NoDup_id.
  - apply Forall_forall. intros t [_ Ht]%list_elem_of_filter.
    by eapply Forall_forall in Hall.
  - eapply sublist_NoDup; [apply newTabs_NoDup_id|].
    apply fmap_sublist, sublist_filter.
Qed.

(** ** Saving *)

Lemma url_known_perm l1 l2 tab :
  l1 ≡ₚ l2 → url_known l1 tab ↔ url_known l2 tab.
Proof. unfold url_known. by intros ->. Qed.

Lemma url_known_getAll w tab :
  url_known (getAll w) tab ↔ url_known (stored w) tab.
Proof. apply url_known_perm, getAll_perm. Qed.

Lemma uniqueNewTabs_snoc existingTabs now random tabsToSave tab :
  uniqueNewTabs existingTabs (newTabs now random (tabsToSave ++ [tab]))
  = uniqueNewTabs existingTabs (newTabs now random tabsToSave)
    ++ (if decide (url_known existingTabs tab) then []
        else [new_tab now random (length tabsToSave) tab]).
Proof.
  unfold uniqueNewTabs, newTabs. rewrite imap_app, filter_app. f_equal.
  simpl. rewrite Nat.add_0_r, filter_cons, filter_nil.
  change (url_exists existingTabs
            (new_tab now random (length tabsToSave) tab))
    with (url_known existingTabs tab).
  repeat case_decide; done.
Qed.

Lemma uniqueNewTabs_length existingTabs now random tabsToSave :
  length (uniqueNewTabs existingTabs (newTabs now random tabsToSave))
  = length (filter (λ tab, ¬ url_known existingTabs tab) tabsToSave).
Proof.
  induction tabsToSave as [|tab tabsToSave IH] using rev_ind; [done|].
  rewrite uniqueNewTabs_snoc, filter_app, !length_app, IH. f_equal.
  rewrite filter_cons, filter_nil. repeat case_decide; done.
Qed.

Lemma filter_url_known_iff l1 l2 (tabs : list ToSave.t) :
  l1 ≡ₚ l2 →
  filter (λ tab, ¬ url_known l1 tab) tabs
  = filter (λ tab, ¬ url_known l2 tab) tabs.
Proof.
  intros Hp. apply list_filter_iff. intros tab.
  by rewrite (url_known_perm l1 l2).
Qed.

Lemma elem_of_uniqueNewTabs existingTabs now random tabsToSave t :
  t ∈ uniqueNewTabs existingTabs (newTabs now random tabsToSave) ↔
  ∃ i tab, tabsToSave !! i = Some tab ∧ ¬ url_known existingTabs tab
           ∧ t = new_tab now random i tab.
Proof.
  unfold uniqueNewTabs. rewrite list_elem_of_filter, elem_of_newTabs. split.
  - intros (Hfresh & i & tab & Hi & ->). by exists i, tab.
  - intros (i & tab & Hi & Hfresh & ->). split; [done|]. by exists i, tab.
Qed.

Lemma uniqueNewTabs_deduped_from existingTabs live now random index tabsToSave :
  existingTabs ≡ₚ live →
  uniqueNewTabs existingTabs
    (imap (λ i, new_tab now random (index + i)) tabsToSave)
  = deduped_new_records live now random index tabsToSave.
Proof.
  intros Hp. revert index.
  induction tabsToSave as [|tab tabsToSave IH]; intros index; [done|].
  rewrite imap_cons. unfold uniqueNewTabs in *. rewrite filter_cons.
  rewrite Nat.add_0_r.
  rewrite (imap_ext _ (λ i, new_tab now random (S index + i)))
    by (intros i x _; simpl; f_equal; lia).
  rewrite IH. simpl.
  change (url_exists existingTabs (new_tab now random index tab))
    with (url_known existingTabs tab).
  destruct (decide (¬ url_known existingTabs tab)) as [Hn|Hk],
           (decide (url_known live tab)) as [Hl|Hl]; try done.
  - by rewrite (url_known_perm _ _ _ Hp) in Hn.
  - apply dec_stable in Hk. by rewrite (url_known_perm _ _ _ Hp) in Hk.
Qed.

Lemma uniqueNewTabs_deduped now random tabsToSave w :
  uniqueNewTabs (getAll w) (newTabs now random tabsToSave)
  = deduped_new_records (stored w) now random 0 tabsToSave.
Proof.
  apply (uniqueNewTabs_deduped_from _ _ now random 0), getAll_perm.
Qed.

(** C6: the array [saveTabs] writes under the live key is the surviving new
    records followed by the existing records as [getSavedTabs] returned
    them.  The surviving records are those made for the candidates whose
    url no stored record has: the record made for the candidate at a
    position is among them exactly when that candidate's url is not stored,
    so there are as many as such candidates.  They are a subsequence of the
    records created for the batch, which are in batch order, so batch order
    is kept and every new record precedes every old one; the old part
    holds exactly the records that were stored, none dropped. *)
Theorem saveTabs_prepends_new_records now random tabsToSave w :
  let created := newTabs now random tabsToSave in
  let added := deduped_new_records (stored w) now random 0 tabsToSave in
  let w' := after (saveTabs now random tabsToSave) w in
  local w' !! STORAGE_KEY = Some (added ++ getAll w) ∧
  calls w' = calls w ++ [call_set STORAGE_KEY (added ++ getAll w)] ∧
  sublist added created ∧
  (∀ i, created !! i = new_tab now random i <$> tabsToSave !! i) ∧
  getAll w ≡ₚ stored w ∧
  (StronglySorted newest_first (stored w) → getAll w = stored w) ∧
  (∀ i tab, tabsToSave !! i = Some tab →
     (new_tab now random i tab ∈ added ↔ ¬ url_known (stored w) tab)) ∧
  length added
  = length (filter (λ tab, ¬ url_known (stored w) tab) tabsToSave) ∧
  length (stored w') = (length added + length (stored w))%nat.
Proof.
  intros created added w'. unfold w', added, created.
  rewrite stored_saveTabs. unfold after. rewrite saveTabs_run. simpl.
  rewrite <-uniqueNewTabs_deduped. split_and!.
  - by rewrite lookup_insert_eq.
  - done.
  - apply sublist_filter.
  - intros i. apply newTabs_lookup.
  - apply getAll_perm.
  - intros Hs. rewrite getAll_sort. by apply Array_sort_fixed.
  - intros i tab Hi. rewrite elem_of_uniqueNewTabs. split.
    + intros (j & tab' & Hj & Hfresh & Heq).
      assert (i = j) as <-.
      { apply (f_equal id) in Heq. simpl in Heq.
        by apply make_id_index in Heq. }
      rewrite Hi in Hj. injection Hj as <-.
      by rewrite <-url_known_getAll.
    + intros Hfresh. exists i, tab. split_and!; [done| |done].
      by rewrite url_known_getAll.
  - rewrite uniqueNewTabs_length.
    by rewrite (filter_url_known_iff _ _ _ (getAll_perm w)).
  - by rewrite length_app, (Permutation_length (getAll_perm w)).
Qed.

Lemma saveTabs_prepends_new_records_witness :
  (StronglySorted newest_first (stored (world_with [tab_a; tab_c; tab_b])) ∧
   local (after (saveTabs 9 some_suffix [cand_d; cand_a])
            (world_with [tab_a; tab_c; tab_b])) !! STORAGE_KEY
   = Some [new_tab 9 some_suffix 0 cand_d; tab_a; tab_c; tab_b]) ∧
  ([cand_d; cand_a] !! 1%nat = Some cand_a ∧
   ¬ new_tab 9 some_suffix 1 cand_a
     ∈ deduped_new_records (stored (world_with [tab_a; tab_c; tab_b]))
         9 some_suffix 0 [cand_d; cand_a]).
Proof.
  assert (H : StronglySorted newest_first
                (stored (world_with [tab_a; tab_c; tab_b]))).
  { by_evaluation. }
  assert (Hk : url_known (stored (world_with [tab_a; tab_c; tab_b])) cand_a).
  { by_evaluation. }
  pose proof (saveTabs_prepends_new_records 9 some_suffix [cand_d; cand_a]
                (world_with [tab_a; tab_c; tab_b])) as Hthm.
  cbv zeta in Hthm.
  destruct Hthm as (Hwritten & _ & _ & _ & _ & Hsame & Hin & _).
  split; split.
  - exact H.
  - rewrite Hwritten, (Hsame H). vm_compute. reflexivity.
  - reflexivity.
  - intros Hmem. apply (proj1 (Hin 1%nat cand_a eq_refl) Hmem). exact Hk.
Defined.

(** C3: dedup is by exact equality of the url strings.  Appending one more
    candidate to a batch changes what is stored as follows: when its url is
    the url of a record stored at call time, nothing (the stored result is
    the one of the batch without it); when its url is the url of no stored
    record, exactly its record is added, so the collection is one longer.
    In general the collection written has as many records as [getSavedTabs]
    returned plus the number of candidates whose url was not stored. *)
Theorem saveTabs_dedup_by_exact_url now random tabsToSave tab w :
  let w1 := after (saveTabs now random tabsToSave) w in
  let w2 := after (saveTabs now random (tabsToSave ++ [tab])) w in
  (url_known (stored w) tab → stored w2 = stored w1) ∧
  (¬ url_known (stored w) tab →
     stored w2
     = uniqueNewTabs (getAll w) (newTabs now random tabsToSave)
       ++ [new_tab now random (length tabsToSave) tab] ++ getAll w
     ∧ length (stored w2) = S (length (stored w1))) ∧
  length (stored w1)
  = (length (stored w)
     + length (filter (λ c, ¬ url_known (stored w) c) tabsToSave))%nat.
Proof.
  intros w1 w2. unfold w1, w2. rewrite !stored_saveTabs, uniqueNewTabs_snoc.
  split_and!.
  - intros Hk%url_known_getAll. rewrite decide_True by done.
    by rewrite app_nil_r.
  - intros Hk. rewrite decide_False by (by rewrite url_known_getAll).
    split; [by rewrite <-app_assoc|].
    rewrite !length_app. simpl. lia.
  - rewrite length_app, uniqueNewTabs_length.
    rewrite (filter_url_known_iff _ _ _ (getAll_perm w)).
    rewrite (getAll_perm w). lia.
Qed.

Lemma saveTabs_dedup_by_exact_url_witness :
  (url_known (stored (world_with [tab_a; tab_b])) cand_a ∧
   stored (after (saveTabs 9 some_suffix ([cand_d] ++ [cand_a]))
             (world_with [tab_a; tab_b]))
   = stored (after (saveTabs 9 some_suffix [cand_d])
               (world_with [tab_a; tab_b]))) ∧
  (¬ url_known (stored (world_with [tab_a; tab_b])) cand_A ∧
   length (stored (after (saveTabs 9 some_suffix ([cand_d] ++ [cand_A]))
                     (world_with [tab_a; tab_b])))
   = S (length (stored (after (saveTabs 9 some_suffix [cand_d])
                          (world_with [tab_a; tab_b]))))).
Proof.
  assert (Ha : url_known (stored (world_with [tab_a; tab_b])) cand_a).
  { by_evaluation. }
  assert (HA : ¬ url_known (stored (world_with [tab_a; tab_b])) cand_A).
  { by_evaluation. }
  split; (split; [assumption|]).
  - exact (proj1 (saveTabs_dedup_by_exact_url 9 some_suffix [cand_d] cand_a
                    (world_with [tab_a; tab_b])) Ha).
  - exact (proj2 (proj1 (proj2
             (saveTabs_dedup_by_exact_url 9 some_suffix [cand_d] cand_A
                (world_with [tab_a; tab_b]))) HA)).
Defined.

(** Urls that differ only in letter case are different urls: a candidate
    for [https://A.com] is saved next to a stored [https://a.com]. *)
Example saveTabs_dedup_is_case_sensitive :
  stored (after (saveTabs 9 some_suffix [cand_a; cand_A])
            (world_with [tab_a; tab_b]))
  = [new_tab 9 some_suffix 1 cand_A; tab_a; tab_b].
Proof. vm_compute. reflexivity. Qed.

Lemma filter_two_indices {A} (P : A → Prop) `{!∀ x, Decision (P x)}
    (l : list A) i j a b :
  i ≠ j → l !! i = Some a → l !! j = Some b → P a → P b →
  (2 ≤ length (filter P l))%nat.
Proof.
  revert i j. induction l as [|x l IH]; intros i j Hij Hi Hj Ha Hb; [done|].
  rewrite filter_cons. destruct i as [|i], j as [|j]; simplify_eq/=.
  - rewrite decide_True by done. simpl.
    assert (b ∈ filter P l) as Hin.
    { apply list_elem_of_filter. split; [done|].
      by eapply list_elem_of_lookup_2. }
    destruct (filter P l); [by apply not_elem_of_nil in Hin|simpl; lia].
  - rewrite decide_True by done. simpl.
    assert (a ∈ filter P l) as Hin.
    { apply list_elem_of_filter. split; [done|].
      by eapply list_elem_of_lookup_2. }
    destruct (filter P l); [by apply not_elem_of_nil in Hin|simpl; lia].
  - assert (2 ≤ length (filter P l))%nat by (eapply (IH i j); eauto).
    case_decide; simpl; lia.
Qed.

Lemma filter_url_newTabs U now random tabsToSave :
  length (filter (λ t, url t = U) (newTabs now random tabsToSave))
  = length (filter (λ tab, ToSave.url tab = U) tabsToSave).
Proof.
  induction tabsToSave as [|tab tabsToSave IH] using rev_ind; [done|].
  unfold newTabs in *. rewrite imap_app, !filter_app, !length_app, IH.
  f_equal. simpl. rewrite !filter_cons, !filter_nil. simpl.
  repeat case_decide; done.
Qed.

(** C4: dedup looks only at what is stored when the call is made.  When no
    stored record has url [U], two candidates of one batch that both have
    url [U] are both persisted, as two records with distinct identifiers;
    the stored collection then holds as many records with url [U] as the
    batch has candidates with that url, at least two. *)
Theorem saveTabs_no_dedup_within_batch now random tabsToSave w i j tab1 tab2 U :
  i ≠ j →
  tabsToSave !! i = Some tab1 → tabsToSave !! j = Some tab2 →
  ToSave.url tab1 = U → ToSave.url tab2 = U →
  Forall (λ existingTab, url existingTab ≠ U) (stored w) →
  let w' := after (saveTabs now random tabsToSave) w in
  new_tab now random i tab1 ∈ stored w' ∧
  new_tab now random j tab2 ∈ stored w' ∧
  id (new_tab now random i tab1) ≠ id (new_tab now random j tab2) ∧
  url (new_tab now random i tab1) = U ∧
  url (new_tab now random j tab2) = U ∧
  length (filter (λ t, url t = U) (stored w'))
  = length (filter (λ tab, ToSave.url tab = U) tabsToSave) ∧
  (2 ≤ length (filter (λ t, url t = U) (stored w')))%nat.
Proof.
  intros Hij Hi Hj H1 H2 Hfresh w'. unfold w'. rewrite stored_saveTabs.
  assert (Hfresh' : Forall (λ e, url e ≠ U) (getAll w)).
  { by rewrite (getAll_perm w). }
  assert (Hnk : ∀ tab, ToSave.url tab = U → ¬ url_known (getAll w) tab).
  { intros tab Htab (e & He & Heq)%Exists_exists.
    eapply Forall_forall in Hfresh'; [|done]. congruence. }
  assert (Hcount :
    length (filter (λ t, url t = U)
      (uniqueNewTabs (getAll w) (newTabs now random tabsToSave) ++ getAll w))
    = length (filter (λ tab, ToSave.url tab = U) tabsToSave)).
  { rewrite filter_app, length_app.
    replace (filter (λ t, url t = U) (getAll w)) with (@nil SavedTab).
    2:{ symmetry. by apply filter_none. }
    unfold uniqueNewTabs. rewrite list_filter_filter.
    rewrite <-filter_url_newTabs with (now := now) (random := random).
    simpl. rewrite Nat.add_0_r. f_equal. apply list_filter_iff.
    intros t. split; [by intros [Ht _]|]. intros Ht. split; [done|].
    intros (e & He & Heq)%Exists_exists.
    eapply Forall_forall in Hfresh'; [|done]. congruence. }
  split_and!.
  - apply elem_of_app. left. apply elem_of_uniqueNewTabs.
    exists i, tab1. split_and!; auto.
  - apply elem_of_app. left. apply elem_of_uniqueNewTabs.
    exists j, tab2. split_and!; auto.
  - simpl. intros Heq%make_id_index. done.
  - done.
  - done.
  - exact Hcount.
  - rewrite Hcount.
    by eapply (filter_two_indices _ _ i j tab1 tab2).
Qed.

Lemma saveTabs_no_dedup_within_batch_witness :
  let w' := after (saveTabs 9 some_suffix [cand_d; cand_a; cand_d])
              (world_with [tab_a; tab_b]) in
  new_tab 9 some_suffix 0 cand_d ∈ stored w' ∧
  new_tab 9 some_suffix 2 cand_d ∈ stored w' ∧
  (2 ≤ length (filter (λ t, url t = "https://d.com") (stored w')))%nat.
Proof.
  assert (Hfresh : Forall (λ existingTab, url existingTab ≠ "https://d.com")
                     (stored (world_with [tab_a; tab_b]))).
  { by_evaluation. }
  pose proof (saveTabs_no_dedup_within_batch 9 some_suffix
    [cand_d; cand_a; cand_d] (world_with [tab_a; tab_b]) 0 2 cand_d cand_d
    "https://d.com" ltac:(lia) eq_refl eq_refl eq_refl eq_refl Hfresh) as H.
  simpl in H. destruct H as (H1 & H2 & _ & _ & _ & _ & H3).
  intros w'. split_and!; assumption.
Defined.

(** C2 as stated fails: a call that adds one record resolves to [undefined],
    not to the number of records added. *)
Lemma saveTabs_resolves_to_undefined_not_count :
  ¬ ((saveTabs 9 some_suffix [cand_d] (world_with [tab_a; tab_b])).1
     = number (Z.of_nat (length
         (uniqueNewTabs (getAll (world_with [tab_a; tab_b]))
            (newTabs 9 some_suffix [cand_d]))))).
Proof. rewrite saveTabs_run. simpl. discriminate. Qed.

(** C2, amended: [saveTabs] resolves to [undefined] for every batch; the
    number of records actually added after dedup, which is the number of
    candidates whose url did not occur in the stored collection, is what the
    call prints on the console, and it is the growth of the collection. *)
Theorem saveTabs_logs_added_count now random tabsToSave w :
  let added := uniqueNewTabs (getAll w) (newTabs now random tabsToSave) in
  let w' := after (saveTabs now random tabsToSave) w in
  (saveTabs now random tabsToSave w).1 = undefined ∧
  console w'
  = console w ++ ["Saved " +:+ pretty (length added) +:+ " new tabs."] ∧
  length added
  = length (filter (λ tab, ¬ url_known (stored w) tab) tabsToSave) ∧
  length (stored w') = (length (stored w) + length added)%nat.
Proof.
  intros added w'. unfold w', added. rewrite stored_saveTabs.
  unfold after. rewrite saveTabs_run. simpl.
  split_and!; [done|done| |].
  - rewrite uniqueNewTabs_length.
    by rewrite (filter_url_known_iff _ _ _ (getAll_perm w)).
  - rewrite length_app, <-(Permutation_length (getAll_perm w)). lia.
Qed.

(** ** Deleting *)

(** C7: [deleteTab] writes back the records read without those whose [id]
    is the argument, and resolves.  When no stored record has that [id],
    the call resolves all the same and the collection is unchanged: the same
    records are stored and [getSavedTabs] returns what it returned
    before. *)
Theorem deleteTab_removes_matching_id tabId w :
  let w' := after (deleteTab tabId) w in
  (deleteTab tabId w).1 = undefined ∧
  local w' !! STORAGE_KEY
  = Some (filter (λ tab, id tab ≠ tabId) (getAll w)) ∧
  calls w'
  = calls w ++ [call_set STORAGE_KEY
                  (filter (λ tab, id tab ≠ tabId) (getAll w))] ∧
  stored w' ≡ₚ filter (λ tab, id tab ≠ tabId) (stored w) ∧
  (Forall (λ tab, id tab ≠ tabId) (stored w) →
     stored w' ≡ₚ stored w ∧ getAll w' = getAll w).
Proof.
  intros w'. unfold w'. rewrite stored_deleteTab, getAll_deleteTab.
  unfold after. rewrite deleteTab_run. simpl.
  split_and!.
  - done.
  - by rewrite lookup_insert_eq.
  - done.
  - by rewrite (getAll_perm w).
  - intros Hno.
    assert (Forall (λ tab, id tab ≠ tabId) (getAll w))
      by (by rewrite (getAll_perm w)).
    rewrite filter_all by done. split; [apply getAll_perm|done].
Qed.

Lemma deleteTab_removes_matching_id_witness :
  Forall (λ tab, id tab ≠ "9-0-absent") (stored (world_with [tab_a; tab_b])) ∧
  getAll (after (deleteTab "9-0-absent") (world_with [tab_a; tab_b]))
  = getAll (world_with [tab_a; tab_b]).
Proof.
  assert (Hno : Forall (λ tab, id tab ≠ "9-0-absent")
                  (stored (world_with [tab_a; tab_b]))).
  { by_evaluation. }
  split; [exact Hno|].
  exact (proj2 (proj2 (proj2 (proj2 (proj2
    (deleteTab_removes_matching_id "9-0-absent"
       (world_with [tab_a; tab_b]))))) Hno)).
Defined.

(** ** Backup *)

Lemma getAll_nil w : getAll w = [] ↔ stored w = [].
Proof.
  split; intros H.
  - apply Permutation_nil_r. by rewrite <-H, getAll_perm.
  - by rewrite getAll_sort, H.
Qed.

(** C8: a backup run on a non-empty live collection sets the backup key to
    the collection as read (the same records as stored under the live key,
    in the stored order when that is newest first), by one write, and
    leaves every other key, the live key among them, as it was; a run on an
    empty live collection writes nothing, so the backup key keeps its
    value. *)
Theorem performBackup_copies_or_skips t0 t1 w :
  let w' := after (performBackup t0 t1) w in
  (stored w ≠ [] →
     local w' !! BACKUP_STORAGE_KEY = Some (getAll w) ∧
     getAll w ≡ₚ stored w ∧
     (StronglySorted newest_first (stored w) →
        local w' !! BACKUP_STORAGE_KEY = Some (stored w)) ∧
     local w' !! STORAGE_KEY = local w !! STORAGE_KEY ∧
     (∀ key, key ≠ BACKUP_STORAGE_KEY → local w' !! key = local w !! key) ∧
     calls w' = calls w ++ [call_set BACKUP_STORAGE_KEY (getAll w)]) ∧
  (stored w = [] →
     local w' = local w ∧ calls w' = calls w ∧
     local w' !! BACKUP_STORAGE_KEY = local w !! BACKUP_STORAGE_KEY).
Proof.
  intros w'. unfold w', after, performBackup, await, console_log.
  rewrite getSavedTabsForBackground_run. split.
  - intros Hne.
    assert (0 < length (getAll w))%nat as Hlen.
    { destruct (getAll w) eqn:E; [|simpl; lia].
      by apply getAll_nil in E. }
    rewrite decide_True by done. simpl. split_and!.
    + by rewrite lookup_insert_eq.
    + apply getAll_perm.
    + intros Hs. rewrite lookup_insert_eq. f_equal.
      by apply Array_sort_fixed.
    + by rewrite lookup_insert_ne.
    + intros key Hkey. by rewrite lookup_insert_ne.
    + done.
  - intros Hnil. apply getAll_nil in Hnil.
    rewrite decide_False; [done|].
    change (¬ (0 < length (getAll w))%nat). rewrite Hnil. simpl. lia.
Qed.

Lemma performBackup_copies_or_skips_witness :
  (stored (world_with [tab_a; tab_c; tab_b]) ≠ [] ∧
   local (after (performBackup "t0" "t1") (world_with [tab_a; tab_c; tab_b]))
     !! BACKUP_STORAGE_KEY = Some [tab_a; tab_c; tab_b]) ∧
  (stored (world_with_backup [] [tab_a; tab_c; tab_b]) = [] ∧
   local (after (performBackup "t2" "t3")
            (world_with_backup [] [tab_a; tab_c; tab_b]))
     !! BACKUP_STORAGE_KEY = Some [tab_a; tab_c; tab_b]).
Proof.
  assert (H1 : stored (world_with [tab_a; tab_c; tab_b]) ≠ []).
  { vm_compute. discriminate. }
  assert (H2 : stored (world_with_backup [] [tab_a; tab_c; tab_b]) = []).
  { vm_compute. reflexivity. }
  split; (split; [assumption|]).
  - destruct (proj1 (performBackup_copies_or_skips "t0" "t1"
                       (world_with [tab_a; tab_c; tab_b])) H1) as [Hb _].
    rewrite Hb. vm_compute. reflexivity.
  - destruct (proj2 (performBackup_copies_or_skips "t2" "t3"
                       (world_with_backup [] [tab_a; tab_c; tab_b])) H2)
      as (_ & _ & Hb).
    rewrite Hb. vm_compute. reflexivity.
Defined.

(** ** Calls that add or remove nothing *)

Lemma uniqueNewTabs_all_known now random tabsToSave w :
  Forall (url_known (stored w)) tabsToSave →
  uniqueNewTabs (getAll w) (newTabs now random tabsToSave) = [].
Proof.
  intros Hall. apply filter_none, Forall_forall.
  intros t (i & tab & Hi & ->)%elem_of_newTabs Hfresh. apply Hfresh.
  change (url_known (getAll w) tab). apply url_known_getAll.
  eapply Forall_forall in Hall; [done|]. by eapply list_elem_of_lookup_2.
Qed.

Lemma stored_saveTabs_all_known now random tabsToSave w :
  Forall (url_known (stored w)) tabsToSave →
  stored (after (saveTabs now random tabsToSave) w)
  = Array_sort by_savedAt_desc (stored w).
Proof.
  intros Hall. by rewrite stored_saveTabs, uniqueNewTabs_all_known.
Qed.

Lemma stored_deleteTab_no_match tabId w :
  Forall (λ tab, id tab ≠ tabId) (stored w) →
  stored (after (deleteTab tabId) w) = Array_sort by_savedAt_desc (stored w).
Proof.
  intros Hno. rewrite stored_deleteTab. apply filter_all.
  by rewrite (getAll_perm w).
Qed.

(** C10 as stated fails in its last part: a call that adds or removes
    nothing never changes the stored order of the records that have one and
    the same [savedAt]. *)
Lemma noop_call_keeps_order_of_equal_savedAt :
  ¬ ((∃ w tabId k,
        Forall (λ tab, id tab ≠ tabId) (stored w) ∧
        filter (λ t, savedAt t = k) (stored (after (deleteTab tabId) w))
        ≠ filter (λ t, savedAt t = k) (stored w))
     ∨ (∃ w now random tabsToSave k,
        Forall (url_known (stored w)) tabsToSave ∧
        filter (λ t, savedAt t = k)
          (stored (after (saveTabs now random tabsToSave) w))
        ≠ filter (λ t, savedAt t = k) (stored w))).
Proof.
  intros [(w & tabId & k & Hno & Hne)|(w & now & random & tabs & k & Hall & Hne)];
    apply Hne.
  - by rewrite stored_deleteTab_no_match, Array_sort_stable.
  - by rewrite stored_saveTabs_all_known, Array_sort_stable.
Qed.

(** C10, amended: every [saveTabs] and every [deleteTab] call makes one
    write of the live key, and the value written is built from the sorted
    array [getSavedTabs] returned.  A call that adds nothing (every
    candidate's url is stored) or removes nothing (no stored [id] matches)
    therefore still replaces the stored value, by the stored records in
    descending [savedAt] order.  That can change the stored order, of
    records with different [savedAt] only: the sort is stable, so records
    with equal [savedAt] keep their order. *)
Theorem saveTabs_deleteTab_always_write now random tabsToSave tabId w :
  let ws := after (saveTabs now random tabsToSave) w in
  let wd := after (deleteTab tabId) w in
  calls ws
  = calls w ++ [call_set STORAGE_KEY
      (uniqueNewTabs (getAll w) (newTabs now random tabsToSave)
       ++ Array_sort by_savedAt_desc (stored w))] ∧
  calls wd
  = calls w ++ [call_set STORAGE_KEY
      (filter (λ tab, id tab ≠ tabId)
         (Array_sort by_savedAt_desc (stored w)))] ∧
  is_Some (local ws !! STORAGE_KEY) ∧
  is_Some (local wd !! STORAGE_KEY) ∧
  (Forall (url_known (stored w)) tabsToSave →
     calls ws
     = calls w ++ [call_set STORAGE_KEY
                     (Array_sort by_savedAt_desc (stored w))] ∧
     stored ws = Array_sort by_savedAt_desc (stored w) ∧
     ∀ k, filter (λ t, savedAt t = k) (stored ws)
          = filter (λ t, savedAt t = k) (stored w)) ∧
  (Forall (λ tab, id tab ≠ tabId) (stored w) →
     calls wd
     = calls w ++ [call_set STORAGE_KEY
                     (Array_sort by_savedAt_desc (stored w))] ∧
     stored wd = Array_sort by_savedAt_desc (stored w) ∧
     ∀ k, filter (λ t, savedAt t = k) (stored wd)
          = filter (λ t, savedAt t = k) (stored w)) ∧
  (Forall (λ tab, id tab ≠ "9-0-absent") (stored world_out_of_order) ∧
   stored (after (deleteTab "9-0-absent") world_out_of_order)
   = [tab_a; tab_c; tab_b] ∧
   stored world_out_of_order = [tab_b; tab_a; tab_c]) ∧
  (Forall (url_known (stored world_out_of_order)) [cand_a] ∧
   stored (after (saveTabs 9 some_suffix [cand_a]) world_out_of_order)
   = [tab_a; tab_c; tab_b]).
Proof.
  intros ws wd. unfold ws, wd. split_and!.
  - unfold after. by rewrite saveTabs_run.
  - unfold after. by rewrite deleteTab_run.
  - unfold after. rewrite saveTabs_run. simpl. by rewrite lookup_insert_eq.
  - unfold after. rewrite deleteTab_run. simpl. by rewrite lookup_insert_eq.
  - intros Hall. split_and!.
    + unfold after. rewrite saveTabs_run. cbn [snd calls].
      by rewrite uniqueNewTabs_all_known.
    + by apply stored_saveTabs_all_known.
    + intros k. by rewrite stored_saveTabs_all_known, Array_sort_stable.
  - intros Hno. split_and!.
    + unfold after. rewrite deleteTab_run. cbn [snd calls].
      rewrite filter_all; [done|]. by rewrite (getAll_perm w).
    + by apply stored_deleteTab_no_match.
    + intros k. by rewrite stored_deleteTab_no_match, Array_sort_stable.
  - by_evaluation.
  - vm_compute. reflexivity.
  - vm_compute. reflexivity.
  - by_evaluation.
  - vm_compute. reflexivity.
Qed.

Lemma saveTabs_deleteTab_always_write_witness :
  (Forall (url_known (stored world_out_of_order)) [cand_a] ∧
   stored (after (saveTabs 9 some_suffix [cand_a]) world_out_of_order)
   = Array_sort by_savedAt_desc (stored world_out_of_order)) ∧
  (Forall (λ tab, id tab ≠ "9-0-absent") (stored world_out_of_order) ∧
   stored (after (deleteTab "9-0-absent") world_out_of_order)
   = Array_sort by_savedAt_desc (stored world_out_of_order)).
Proof.
  assert (H1 : Forall (url_known (stored world_out_of_order)) [cand_a]).
  { by_evaluation. }
  assert (H2 : Forall (λ tab, id tab ≠ "9-0-absent")
                 (stored world_out_of_order)).
  { by_evaluation. }
  pose proof (saveTabs_deleteTab_always_write 9 some_suffix [cand_a]
                "9-0-absent" world_out_of_order) as H.
  simpl in H. destruct H as (_ & _ & _ & _ & Hs & Hd & _).
  split; (split; [assumption|]).
  - exact (proj1 (proj2 (Hs H1))).
  - exact (proj1 (proj2 (Hd H2))).
Defined.

(** ** Sequences of operations *)

Lemma run_ops_cons op ops w :
  after (run_ops (op :: ops)) w = after (run_ops ops) (after (run_op op) w).
Proof.
  unfold after. simpl. unfold await. by destruct (run_op op w).
Qed.

Lemma url_exists_perm l1 l2 t :
  l1 ≡ₚ l2 → url_exists l1 t ↔ url_exists l2 t.
Proof. unfold url_exists. by intros ->. Qed.

Lemma uniqueNewTabs_perm l1 l2 newTabs :
  l1 ≡ₚ l2 → uniqueNewTabs l1 newTabs = uniqueNewTabs l2 newTabs.
Proof.
  intros Hp. apply list_filter_iff. intros t.
  by rewrite (url_exists_perm l1 l2).
Qed.

(** The expected records depend on the starting records only up to the
    stable sort. *)
Lemma surviving_sort ops l1 l2 :
  Array_sort by_savedAt_desc l1 = Array_sort by_savedAt_desc l2 →
  Array_sort by_savedAt_desc (surviving ops l1)
  = Array_sort by_savedAt_desc (surviving ops l2).
Proof.
  revert l1 l2. induction ops as [|[now random tabs|tabId] ops IH];
    intros l1 l2 Heq; simpl.
  - done.
  - apply IH.
    change (filter (λ t, ¬ url_exists ?l t) ?n) with (uniqueNewTabs l n).
    rewrite (uniqueNewTabs_perm l1 l2) by by apply Array_sort_eq_perm.
    by rewrite !Array_sort_app, Heq.
  - apply IH. by rewrite <-!filter_Array_sort, Heq.
Qed.

Lemma getAll_run_ops_sort ops w :
  getAll (after (run_ops ops) w)
  = Array_sort by_savedAt_desc (surviving ops (stored w)).
Proof.
  revert w. induction ops as [|[now random tabs|tabId] ops IH]; intros w.
  - apply getAll_sort.
  - rewrite run_ops_cons, IH. simpl. rewrite stored_saveTabs.
    apply surviving_sort.
    rewrite (uniqueNewTabs_perm _ _ _ (getAll_perm w)).
    apply Array_sort_app_sorted_tail.
  - rewrite run_ops_cons, IH. simpl. rewrite stored_deleteTab.
    apply surviving_sort.
    by rewrite getAll_sort, <-!filter_Array_sort, Array_sort_idemp.
Qed.

Lemma getAll_run_ops ops w :
  getAll (after (run_ops ops) w) ≡ₚ surviving ops (stored w).
Proof. rewrite getAll_run_ops_sort. apply Array_sort_perm. Qed.

Lemma created_and_kept_cons op ops w r :
  created_and_kept (after (run_op op) w) ops r →
  created_and_kept w (op :: ops) r.
Proof.
  intros (before & now & random & tabs & later & i & tab
          & -> & Hi & Hfresh & Hr & Hid & Hat & Hlater).
  exists (op :: before), now, random, tabs, later, i, tab.
  split_and!; try done. by rewrite run_ops_cons.
Qed.

Lemma getAll_run_ops_origin ops w r :
  r ∈ getAll (after (run_ops ops) w) →
  (r ∈ stored w ∧ Forall (λ op, op ≠ op_delete (id r)) ops)
  ∨ created_and_kept w ops r.
Proof.
  revert w. induction ops as [|op ops IH]; intros w Hr.
  - left. split; [|constructor]. by rewrite <-(getAll_perm w).
  - rewrite run_ops_cons in Hr.
    destruct (IH _ Hr) as [[Hin Hlater]|Hc];
      [|right; by apply created_and_kept_cons].
    destruct op as [now random tabs|tabId]; simpl in Hin.
    + rewrite stored_saveTabs in Hin.
      apply elem_of_app in Hin as [Hin|Hin].
      * right. apply elem_of_uniqueNewTabs in Hin
          as (i & tab & Hi & Hfresh & ->).
        exists [], now, random, tabs, ops, i, tab.
        split_and!; try done.
        by rewrite <-url_known_getAll.
      * left. split; [by rewrite <-(getAll_perm w)|].
        constructor; [done|done].
    + rewrite stored_deleteTab in Hin.
      apply list_elem_of_filter in Hin as [Hne Hin].
      left. split; [by rewrite <-(getAll_perm w)|].
      constructor; [congruence|done].
Qed.

Lemma run_ops_app ops1 ops2 w :
  after (run_ops (ops1 ++ ops2)) w
  = after (run_ops ops2) (after (run_ops ops1) w).
Proof.
  revert w. induction ops1 as [|op ops1 IH]; intros w; [done|].
  by rewrite <-app_comm_cons, !run_ops_cons, IH.
Qed.

Lemma getAll_run_ops_kept ops w r :
  r ∈ stored w → Forall (λ op, op ≠ op_delete (id r)) ops →
  r ∈ getAll (after (run_ops ops) w).
Proof.
  revert w. induction ops as [|op ops IH]; intros w Hin Hops.
  - by rewrite (getAll_perm w).
  - apply Forall_cons in Hops as [Hop Hops].
    rewrite run_ops_cons. apply IH; [|done].
    destruct op as [now random tabs|tabId]; simpl.
    + rewrite stored_saveTabs. apply elem_of_app. right.
      by rewrite (getAll_perm w).
    + rewrite stored_deleteTab. apply list_elem_of_filter.
      split; [congruence|]. by rewrite (getAll_perm w).
Qed.

Lemma created_and_kept_getAll ops w r :
  created_and_kept w ops r → r ∈ getAll (after (run_ops ops) w).
Proof.
  intros (before & now & random & tabs & later & i & tab
          & -> & Hi & Hfresh & -> & _ & _ & Hlater).
  rewrite run_ops_app, run_ops_cons. apply getAll_run_ops_kept; [|done].
  simpl. rewrite stored_saveTabs. apply elem_of_app. left.
  apply elem_of_uniqueNewTabs. exists i, tab. split_and!; [done| |done].
  by rewrite url_known_getAll.
Qed.

(** C1: after any sequence of [saveTabs] and [deleteTab] calls run from the
    empty store, [getSavedTabs] returns exactly the records that were added
    and not deleted since (the same records, as often, newest first): a
    record is returned if and only if a save call of the sequence created
    it for a candidate that passed dedup and no later call of the sequence
    deletes its [id]; and a returned record is the record that save call
    made, with the [id] and the [savedAt] the call gave it. *)
Theorem getAll_after_operations (ops : list Op) :
  let w := after (run_ops ops) empty_world in
  getAll w ≡ₚ surviving ops [] ∧
  getAll w = Array_sort by_savedAt_desc (surviving ops []) ∧
  Forall (created_and_kept empty_world ops) (getAll w) ∧
  ∀ r, r ∈ getAll w ↔ created_and_kept empty_world ops r.
Proof.
  intros w. unfold w.
  assert (Hfrom : ∀ r, r ∈ getAll (after (run_ops ops) empty_world) →
                       created_and_kept empty_world ops r).
  { intros r Hr.
    apply getAll_run_ops_origin in Hr as [[Hin _]|Hc]; [|done].
    by apply not_elem_of_nil in Hin. }
  split_and!.
  - apply (getAll_run_ops ops empty_world).
  - apply (getAll_run_ops_sort ops empty_world).
  - by apply Forall_forall.
  - intros r. split; [apply Hfrom|apply created_and_kept_getAll].
Qed.

(** ** Scenarios *)

Example make_id_example :
  make_id 1700000000000 2 "k3x9q8z" = "1700000000000-2-k3x9q8z".
Proof. vm_compute. reflexivity. Qed.

(** Two new urls saved into the empty store: two records, one [savedAt]. *)
Example scenario_save_two_new :
  getAll (after (saveTabs 7 some_suffix [cand_a; cand_d]) empty_world)
  = [ {| id := "7-0-q1w2e3r"; url := "https://a.com"; title := "A2";
         favIconUrl := None; savedAt := 7 |};
      {| id := "7-1-a9b8c7d"; url := "https://d.com"; title := "D";
         favIconUrl := None; savedAt := 7 |} ].
Proof. vm_compute. reflexivity. Qed.

(** A stored url saved again: nothing is added and the log says so. *)
Example scenario_save_known_url :
  let w' := after (saveTabs 9 some_suffix [cand_a]) (world_with [tab_a]) in
  stored w' = [tab_a] ∧ console w' = ["Saved 0 new tabs."].
Proof. vm_compute. split; reflexivity. Qed.

(** [clearAllTabs] removes the live key; [getSavedTabs] then returns the
    empty array. *)
Example scenario_clear_then_get :
  getAll (after clearAllTabs (world_with [tab_a; tab_b])) = [].
Proof. vm_compute. reflexivity. Qed.

(** Save, save with an earlier clock, delete: the store holds the sorted
    snapshot without the deleted record. *)
Example scenario_sequence :
  stored (after (run_ops [op_save 5 some_suffix [cand_a];
                          op_save 3 some_suffix [cand_d; cand_a];
                          op_delete "7-0-absent"]) empty_world)
  = [ new_tab 5 some_suffix 0 cand_a; new_tab 3 some_suffix 0 cand_d ].
Proof. vm_compute. reflexivity. Qed.

(** * Further properties of the tab record manager *)

(** X1: [clearAllTabs] removes the live key by one [remove] call and
    nothing else: whatever was stored, [getSavedTabs] then returns the empty
    array, and the backup snapshot is as it was. *)
Theorem clearAllTabs_empties_collection w :
  let w' := after clearAllTabs w in
  (clearAllTabs w).1 = undefined ∧
  getAll w' = [] ∧
  local w' = delete STORAGE_KEY (local w) ∧
  local w' !! BACKUP_STORAGE_KEY = local w !! BACKUP_STORAGE_KEY ∧
  calls w' = calls w ++ [call_remove STORAGE_KEY].
Proof.
  intros w'. unfold w', after, getAll, stored. simpl.
  split_and!; try done.
  - by rewrite lookup_delete_eq.
  - by rewrite lookup_delete_ne.
Qed.

Lemma stored_clearAllTabs w : stored (after clearAllTabs w) = [].
Proof. unfold after, stored. simpl. by rewrite lookup_delete_eq. Qed.

Lemma uniqueNewTabs_nil newTabs : uniqueNewTabs [] newTabs = newTabs.
Proof.
  apply filter_all, Forall_forall. intros t _ Hex.
  by apply Exists_nil in Hex.
Qed.

(** X2: after [clearAllTabs] nothing is remembered for dedup: a
    [saveTabs] call stores a record for every candidate of its batch, in
    batch order. *)
Theorem saveTabs_after_clearAllTabs now random tabsToSave w :
  let w' := after (saveTabs now random tabsToSave) (after clearAllTabs w) in
  stored w' = newTabs now random tabsToSave ∧
  length (stored w') = length tabsToSave ∧
  ∀ i, stored w' !! i = new_tab now random i <$> tabsToSave !! i.
Proof.
  intros w'. unfold w'.
  assert (Hs : stored (after (saveTabs now random tabsToSave)
                         (after clearAllTabs w))
               = newTabs now random tabsToSave).
  { rewrite stored_saveTabs, getAll_sort, stored_clearAllTabs. simpl.
    by rewrite uniqueNewTabs_nil, app_nil_r. }
  rewrite Hs. split_and!; [done| |].
  - unfold newTabs. apply length_imap.
  - intros i. apply newTabs_lookup.
Qed.

Lemma saveTabs_urls_known now random tabsToSave w :
  Forall (url_known (stored (after (saveTabs now random tabsToSave) w)))
    tabsToSave.
Proof.
  apply Forall_forall. intros tab [i Hi]%list_elem_of_lookup.
  rewrite stored_saveTabs. unfold url_known.
  destruct (decide (url_known (getAll w) tab)) as [Hk|Hk].
  - apply Exists_app. by right.
  - apply Exists_app. left. apply Exists_exists.
    exists (new_tab now random i tab). split; [|done].
    apply elem_of_uniqueNewTabs. by exists i, tab.
Qed.

Lemma getAll_stored_sorted w :
  StronglySorted newest_first (stored w) → getAll w = stored w.
Proof. intros Hs. rewrite getAll_sort. by apply Array_sort_fixed. Qed.

(** X3: after a [saveTabs] call the url of every candidate of the batch is
    stored, so saving the same batch again, at any time, adds nothing:
    [getSavedTabs] returns what it returned after the first call and the
    call reports zero new tabs. *)
Theorem saveTabs_again_adds_nothing now random now' random' tabsToSave w :
  let w1 := after (saveTabs now random tabsToSave) w in
  let w2 := after (saveTabs now' random' tabsToSave) w1 in
  Forall (url_known (stored w1)) tabsToSave ∧
  stored w2 = getAll w1 ∧
  getAll w2 = getAll w1 ∧
  console w2 = console w1 ++ ["Saved 0 new tabs."].
Proof.
  intros w1 w2. unfold w1, w2.
  pose proof (saveTabs_urls_known now random tabsToSave w) as Hk.
  split_and!.
  - done.
  - by rewrite stored_saveTabs_all_known.
  - rewrite getAll_sort, stored_saveTabs_all_known by done.
    rewrite Array_sort_idemp. symmetry. apply getAll_sort.
  - unfold after at 1. rewrite saveTabs_run. cbn [snd console].
    by rewrite uniqueNewTabs_all_known.
Qed.

Lemma newTabs_urls now random tabsToSave :
  url <$> newTabs now random tabsToSave = ToSave.url <$> tabsToSave.
Proof.
  apply list_eq. intros i.
  rewrite !list_lookup_fmap, newTabs_lookup.
  by destruct (tabsToSave !! i).
Qed.

Lemma saveTabs_urls_NoDup now random tabsToSave w :
  NoDup (url <$> stored w) → NoDup (ToSave.url <$> tabsToSave) →
  NoDup (url <$> stored (after (saveTabs now random tabsToSave) w)).
Proof.
  intros Hw Hb. rewrite stored_saveTabs, fmap_app. apply NoDup_app.
  split_and!.
  - eapply sublist_NoDup; [|apply fmap_sublist, sublist_filter].
    by rewrite newTabs_urls.
  - intros u (t & -> & Ht)%list_elem_of_fmap (e & Heq & He)%list_elem_of_fmap.
    apply list_elem_of_filter in Ht as [Hfresh _]. apply Hfresh.
    apply Exists_exists. by exists e.
  - by rewrite (getAll_perm w).
Qed.

Lemma deleteTab_urls_NoDup tabId w :
  NoDup (url <$> stored w) →
  NoDup (url <$> stored (after (deleteTab tabId) w)).
Proof.
  intros Hw. rewrite stored_deleteTab.
  eapply sublist_NoDup; [|apply fmap_sublist, sublist_filter].
  by rewrite (getAll_perm w).
Qed.

(** X4: urls stay unique.  When no two stored records share a url and no
    batch of the sequence repeats a url, no two records share a url after
    the sequence, in the store and in what [getSavedTabs] returns. *)
Theorem urls_stay_distinct ops w :
  NoDup (url <$> stored w) →
  Forall batch_urls_distinct ops →
  NoDup (url <$> stored (after (run_ops ops) w)) ∧
  NoDup (url <$> getAll (after (run_ops ops) w)).
Proof.
  intros Hw Hops.
  assert (H : NoDup (url <$> stored (after (run_ops ops) w))).
  { revert w Hw. induction Hops as [|op ops Hop _ IH]; intros w Hw; [done|].
    rewrite run_ops_cons. apply IH.
    destruct op as [now random tabs|tabId]; simpl.
    - by apply saveTabs_urls_NoDup.
    - by apply deleteTab_urls_NoDup. }
  split; [done|]. by rewrite getAll_perm.
Qed.

Lemma pretty_Z_dash_free (z : Z) : 0 ≤ z → dash_free (pretty z).
Proof.
  destruct z as [|p|p]; [done| |lia]. intros _.
  change (dash_free (pretty (N.pos p))).
  unfold pretty, pretty_N. case_decide; [done|].
  by apply pretty_N_go_dash_free.
Qed.

Lemma make_id_time now1 now2 i1 i2 s1 s2 :
  0 ≤ now1 → 0 ≤ now2 →
  make_id now1 i1 s1 = make_id now2 i2 s2 → now1 = now2.
Proof.
  unfold make_id. intros H1 H2 Heq.
  apply dash_free_prefix in Heq; auto using pretty_Z_dash_free.
  by apply (inj pretty) in Heq.
Qed.

Lemma id_stamped_mono times1 times2 r :
  times1 ⊆ times2 → id_stamped times1 r → id_stamped times2 r.
Proof.
  intros Hsub (now & i & s & Hin & Hpos & Hid).
  exists now, i, s. split_and!; auto.
Qed.

Lemma saveTabs_ids_NoDup now random tabsToSave times w :
  NoDup (id <$> stored w) → Forall (id_stamped times) (stored w) →
  0 ≤ now → now ∉ times →
  NoDup (id <$> stored (after (saveTabs now random tabsToSave) w)) ∧
  Forall (id_stamped (now :: times))
    (stored (after (saveTabs now random tabsToSave) w)).
Proof.
  intros Hnd Hst Hpos Hnew. rewrite stored_saveTabs.
  assert (Hst' : Forall (id_stamped times) (getAll w))
    by (by rewrite (getAll_perm w)).
  split.
  - rewrite fmap_app. apply NoDup_app. split_and!.
    + eapply sublist_NoDup; [apply newTabs_NoDup_id|].
      apply fmap_sublist, sublist_filter.
    + intros x (t & -> & Ht)%list_elem_of_fmap
               (e & Heq & He)%list_elem_of_fmap.
      apply list_elem_of_filter in Ht as [_ Ht].
      apply elem_of_newTabs in Ht as (i & tab & _ & ->).
      eapply Forall_forall in Hst' as (t & j & s & Hin & Ht & Hid); [|done].
      simpl in Heq. rewrite Hid in Heq.
      apply make_id_time in Heq; [|done..]. by subst.
    + by rewrite (getAll_perm w).
  - apply Forall_app. split.
    + apply Forall_forall. intros t [_ Ht]%list_elem_of_filter.
      apply elem_of_newTabs in Ht as (i & tab & _ & ->).
      exists now, i, (random i). split_and!; [left|done|done].
    + eapply Forall_impl; [exact Hst'|]. intros r.
      apply id_stamped_mono. set_solver.
Qed.

Lemma deleteTab_ids_NoDup tabId times w :
  NoDup (id <$> stored w) → Forall (id_stamped times) (stored w) →
  NoDup (id <$> stored (after (deleteTab tabId) w)) ∧
  Forall (id_stamped times) (stored (after (deleteTab tabId) w)).
Proof.
  intros Hnd Hst. rewrite stored_deleteTab. split.
  - eapply sublist_NoDup; [|apply fmap_sublist, sublist_filter].
    by rewrite (getAll_perm w).
  - apply Forall_forall. intros r [_ Hr]%list_elem_of_filter.
    rewrite (getAll_perm w) in Hr. by eapply Forall_forall in Hst.
Qed.

Lemma run_ops_ids_NoDup ops times w :
  NoDup (id <$> stored w) → Forall (id_stamped times) (stored w) →
  NoDup (save_times ops) →
  Forall (λ now, 0 ≤ now ∧ now ∉ times) (save_times ops) →
  NoDup (id <$> stored (after (run_ops ops) w)).
Proof.
  revert times w. induction ops as [|[now random tabs|tabId] ops IH];
    intros times w Hnd Hst Hdist Hall; simpl in Hdist, Hall.
  - done.
  - apply NoDup_cons in Hdist as [Hnow Hdist].
    apply Forall_cons in Hall as [[Hpos Hnew] Hall].
    destruct (saveTabs_ids_NoDup now random tabs times w) as [Hnd' Hst'];
      [done..|].
    rewrite run_ops_cons. apply (IH (now :: times)); [done..|].
    apply Forall_forall. intros t Ht.
    eapply Forall_forall in Hall as [Ht0 Htn]; [|done].
    split; [done|]. intros [->|Hin]%elem_of_cons; done.
  - destruct (deleteTab_ids_NoDup tabId times w) as [Hnd' Hst']; [done..|].
    rewrite run_ops_cons. by apply (IH times).
Qed.

(** X5: identifiers stay unique.  When the save calls of a sequence run
    from the empty store read pairwise different, non-negative times, no
    two stored records have the same [id], in the store and in what
    [getSavedTabs] returns. *)
Theorem ids_stay_distinct ops :
  NoDup (save_times ops) →
  Forall (λ now, 0 ≤ now) (save_times ops) →
  NoDup (id <$> stored (after (run_ops ops) empty_world)) ∧
  NoDup (id <$> getAll (after (run_ops ops) empty_world)).
Proof.
  intros Hdist Hpos.
  assert (H : NoDup (id <$> stored (after (run_ops ops) empty_world))).
  { apply (run_ops_ids_NoDup ops []); [constructor|constructor|done|].
    eapply Forall_impl; [exact Hpos|]. intros t Ht. split; [done|].
    apply not_elem_of_nil. }
  split; [done|]. by rewrite getAll_perm.
Qed.

Lemma StronglySorted_same_savedAt now (l : list SavedTab) :
  Forall (λ t, savedAt t = now) l → StronglySorted newest_first l.
Proof.
  induction 1 as [|x l Hx Hl IH]; constructor; [done|].
  eapply Forall_impl; [exact Hl|]. unfold newest_first. intros; lia.
Qed.

Lemma stored_deleteTab_sorted tabId w :
  StronglySorted newest_first (stored (after (deleteTab tabId) w)).
Proof.
  rewrite stored_deleteTab. apply StronglySorted_filter, getAll_sorted.
Qed.

Lemma stored_saveTabs_sorted now random tabsToSave w :
  Forall (λ r, savedAt r ≤ now) (stored w) →
  StronglySorted newest_first
    (stored (after (saveTabs now random tabsToSave) w)) ∧
  Forall (λ r, savedAt r ≤ now)
    (stored (after (saveTabs now random tabsToSave) w)).
Proof.
  intros Hold. rewrite stored_saveTabs.
  assert (Hold' : Forall (λ r, savedAt r ≤ now) (getAll w))
    by (by rewrite (getAll_perm w)).
  assert (Hnew : Forall (λ t, savedAt t = now)
            (uniqueNewTabs (getAll w) (newTabs now random tabsToSave))).
  { apply Forall_forall. intros t [_ Ht]%list_elem_of_filter.
    by apply elem_of_newTabs in Ht as (i & tab & _ & ->). }
  split.
  - apply StronglySorted_app. split_and!.
    + intros x1 x2 Hx1 Hx2. unfold newest_first.
      eapply Forall_forall in Hnew; [|exact Hx1].
      eapply Forall_forall in Hold'; [|exact Hx2]. simpl in *. lia.
    + by eapply StronglySorted_same_savedAt.
    + apply getAll_sorted.
  - apply Forall_app. split; [|done].
    eapply Forall_impl; [exact Hnew|]. simpl. intros; lia.
Qed.

Lemma run_ops_sorted ops bound w :
  StronglySorted newest_first (stored w) →
  Forall (λ r, savedAt r ≤ bound) (stored w) →
  StronglySorted Z.le (bound :: save_times ops) →
  StronglySorted newest_first (stored (after (run_ops ops) w)).
Proof.
  revert bound w. induction ops as [|[now random tabs|tabId] ops IH];
    intros bound w Hs Hb Hclock; simpl in Hclock.
  - done.
  - apply StronglySorted_cons in Hclock as [Hle Hclock].
    apply Forall_cons in Hle as [Hnow Hle].
    destruct (stored_saveTabs_sorted now random tabs w) as [Hs' Hb'].
    { eapply Forall_impl; [exact Hb|]. simpl. intros; lia. }
    rewrite run_ops_cons. by apply (IH now).
  - rewrite run_ops_cons. cbn [run_op]. apply (IH bound).
    + apply stored_deleteTab_sorted.
    + rewrite stored_deleteTab. apply Forall_forall.
      intros r [_ Hr]%list_elem_of_filter. rewrite (getAll_perm w) in Hr.
      by eapply Forall_forall in Hb.
    + done.
Qed.

(** X6: with a clock that never goes back the store is always newest
    first.  When the stored array is in descending [savedAt] order, no
    stored record is newer than [bound], and the save calls of a sequence
    read times that start at [bound] or later and never decrease, the
    stored array is in descending [savedAt] order after the sequence, so
    [getSavedTabs] returns the array exactly as stored. *)
Theorem stored_stays_newest_first ops bound w :
  StronglySorted newest_first (stored w) →
  Forall (λ r, savedAt r ≤ bound) (stored w) →
  StronglySorted Z.le (bound :: save_times ops) →
  StronglySorted newest_first (stored (after (run_ops ops) w)) ∧
  getAll (after (run_ops ops) w) = stored (after (run_ops ops) w).
Proof.
  intros Hs Hb Hclock.
  assert (H : StronglySorted newest_first (stored (after (run_ops ops) w)))
    by (by eapply run_ops_sorted).
  split; [done|]. by apply getAll_stored_sorted.
Qed.

(** X7: deleting an [id] twice is deleting it once, and two deletions can
    be made in either order, as far as what is stored goes; after a
    deletion the stored array is always in descending [savedAt] order. *)
Theorem deleteTab_idempotent_and_commutes tabId1 tabId2 w :
  stored (after (deleteTab tabId1) (after (deleteTab tabId1) w))
  = stored (after (deleteTab tabId1) w) ∧
  stored (after (deleteTab tabId1) (after (deleteTab tabId2) w))
  = stored (after (deleteTab tabId2) (after (deleteTab tabId1) w)) ∧
  StronglySorted newest_first (stored (after (deleteTab tabId1) w)).
Proof.
  rewrite !stored_deleteTab, !getAll_deleteTab. split_and!.
  - rewrite list_filter_filter. apply list_filter_iff. tauto.
  - rewrite !list_filter_filter. apply list_filter_iff. tauto.
  - apply StronglySorted_filter, getAll_sorted.
Qed.

(** X8: saving one candidate and then deleting the [id] it was given, or
    would have been given, brings back what [getSavedTabs] returned before,
    provided no stored record has that [id]. *)
Theorem saveTabs_then_deleteTab_restores now random tab w :
  Forall (λ r, id r ≠ make_id now 0 (random 0%nat)) (stored w) →
  getAll (after (deleteTab (make_id now 0 (random 0%nat)))
            (after (saveTabs now random [tab]) w))
  = getAll w.
Proof.
  intros Hfresh.
  rewrite getAll_deleteTab, getAll_sort, stored_saveTabs.
  rewrite filter_Array_sort, filter_app.
  assert (Hnew : filter (λ t, id t ≠ make_id now 0 (random 0%nat))
                   (uniqueNewTabs (getAll w) (newTabs now random [tab]))
                 = []).
  { apply filter_none, Forall_forall.
    intros t [_ Ht]%list_elem_of_filter.
    apply list_elem_of_singleton in Ht as ->. simpl. tauto. }
  rewrite Hnew. simpl.
  rewrite filter_all by (by rewrite (getAll_perm w)).
  rewrite getAll_sort. apply Array_sort_idemp.
Qed.

Lemma run_op_other_key op key w :
  key ≠ STORAGE_KEY → local (after (run_op op) w) !! key = local w !! key.
Proof.
  intros Hkey. destruct op as [now random tabs|tabId];
    unfold after; cbn [run_op].
  - rewrite saveTabs_run. simpl. by rewrite lookup_insert_ne.
  - rewrite deleteTab_run. simpl. by rewrite lookup_insert_ne.
Qed.

(** X9: the tab record manager writes the live key only: no sequence of
    [saveTabs] and [deleteTab] calls changes what is stored under another
    key, such as the backup snapshot. *)
Theorem run_ops_other_keys ops key w :
  key ≠ STORAGE_KEY →
  local (after (run_ops ops) w) !! key = local w !! key.
Proof.
  intros Hkey. revert w. induction ops as [|op ops IH]; intros w; [done|].
  by rewrite run_ops_cons, IH, run_op_other_key.
Qed.

(** * Further properties of the backup scheduler *)

Lemma performBackup_run t0 t1 w :
  after (performBackup t0 t1) w =
    if decide (stored w = []) then
      {| local := local w; calls := calls w;
         console := console w
           ++ ["[" +:+ t0 +:+ "] Performing scheduled backup...";
               "[" +:+ t1 +:+ "] No tabs to backup."] |}
    else
      {| local := <[BACKUP_STORAGE_KEY := getAll w]> (local w);
         calls := calls w ++ [call_set BACKUP_STORAGE_KEY (getAll w)];
         console := console w
           ++ ["[" +:+ t0 +:+ "] Performing scheduled backup...";
               "[" +:+ t1 +:+ "] Backup completed. "
               +:+ pretty (length (getAll w))
               +:+ " tabs saved to key: " +:+ BACKUP_STORAGE_KEY] |}.
Proof.
  unfold after, performBackup, await, console_log.
  rewrite getSavedTabsForBackground_run.
  change (getAll {| local := local w; calls := calls w;
                    console := console w
                      ++ ["[" +:+ t0 +:+ "] Performing scheduled backup..."] |})
    with (getAll w).
  destruct (decide (stored w = [])) as [Hnil|Hne].
  - apply getAll_nil in Hnil. rewrite Hnil. simpl.
    by rewrite <-app_assoc.
  - rewrite decide_True.
    + simpl. by rewrite <-!app_assoc.
    + destruct (getAll w) eqn:E; [|simpl; lia].
      by apply getAll_nil in E.
Qed.

Lemma stored_performBackup t0 t1 w :
  stored (after (performBackup t0 t1) w) = stored w.
Proof.
  rewrite performBackup_run. case_decide; [done|].
  unfold stored. simpl. by rewrite lookup_insert_ne.
Qed.

Lemma getAll_performBackup t0 t1 w :
  getAll (after (performBackup t0 t1) w) = getAll w.
Proof. by rewrite !getAll_sort, stored_performBackup. Qed.

(** X10: running the backup twice in a row stores what running it once
    stores; a backup run never changes what [getSavedTabs] returns. *)
Theorem performBackup_idempotent t0 t1 t2 t3 w :
  local (after (performBackup t2 t3) (after (performBackup t0 t1) w))
  = local (after (performBackup t0 t1) w) ∧
  getAll (after (performBackup t0 t1) w) = getAll w.
Proof.
  split; [|apply getAll_performBackup].
  rewrite (performBackup_run t2 t3).
  rewrite stored_performBackup, getAll_performBackup.
  rewrite (performBackup_run t0 t1).
  case_decide; [done|]. simpl. by rewrite insert_insert_eq.
Qed.

(** X11: the snapshot outlives the collection.  After a backup of a
    non-empty collection, [clearAllTabs] and any number of further backup
    runs, the backup key still holds the records [getSavedTabs] returned
    before the first backup, while [getSavedTabs] returns the empty
    array. *)
Theorem backup_survives_clearAllTabs t0 t1 stamps w :
  stored w ≠ [] →
  let run_backups := λ w0,
    foldl (λ w' ts, after (performBackup ts.1 ts.2) w') w0 stamps in
  let w' := run_backups (after clearAllTabs (after (performBackup t0 t1) w)) in
  local w' !! BACKUP_STORAGE_KEY = Some (getAll w) ∧
  getAll w' = [].
Proof.
  intros Hne run_backups w'. unfold w', run_backups.
  assert (Hinv : ∀ w0, stored w0 = [] →
            stored (foldl (λ w' ts, after (performBackup ts.1 ts.2) w')
                      w0 stamps) = [] ∧
            local (foldl (λ w' ts, after (performBackup ts.1 ts.2) w')
                     w0 stamps) = local w0).
  { induction stamps as [|ts stamps IH]; intros w0 Hw0; [done|]. simpl.
    destruct (IH (after (performBackup ts.1 ts.2) w0)) as [Hs Hl].
    { by rewrite stored_performBackup. }
    split; [done|]. rewrite Hl, performBackup_run. by rewrite decide_True. }
  destruct (Hinv (after clearAllTabs (after (performBackup t0 t1) w)))
    as [Hs Hl]; [apply stored_clearAllTabs|].
  split.
  - rewrite Hl. unfold after at 1. simpl.
    rewrite lookup_delete_ne by done.
    rewrite performBackup_run, decide_False by done. simpl.
    by rewrite lookup_insert_eq.
  - by apply getAll_nil.
Qed.

(** X12: the listeners.  An alarm with another name than the backup alarm
    changes nothing.  [onInstalled] leaves exactly one backup alarm, with a
    period of 1440 minutes, whatever was registered, and the other alarms as
    they were; it never changes the live key; and for a reason other than
    [install] it makes no storage call. *)
Theorem listeners_backup_only_when_due name reason t0 t1 b :
  let b' := onInstalled reason t0 t1 b in
  (name ≠ BACKUP_ALARM_NAME →
     onAlarm name t0 t1 (bg_world b) = (undefined, bg_world b) ∧
     alarms b' !! name = alarms b !! name) ∧
  after (onAlarm BACKUP_ALARM_NAME t0 t1) (bg_world b)
  = after (performBackup t0 t1) (bg_world b) ∧
  alarms b' !! BACKUP_ALARM_NAME = Some 1440 ∧
  alarms (onInstalled reason t0 t1 b') = alarms b' ∧
  local (bg_world b') !! STORAGE_KEY = local (bg_world b) !! STORAGE_KEY ∧
  (reason ≠ "install" →
     local (bg_world b') = local (bg_world b) ∧
     calls (bg_world b') = calls (bg_world b)) ∧
  (reason = "install" →
     local (bg_world b') = local (after (performBackup t0 t1) (bg_world b))).
Proof.
  intros b'. unfold b', onInstalled. cbn [alarms bg_world]. split_and!.
  - intros Hname. split.
    + unfold onAlarm. by rewrite decide_False.
    + by rewrite lookup_insert_ne, lookup_delete_ne.
  - unfold onAlarm. rewrite decide_True by done.
    unfold after, await. by destruct (performBackup t0 t1 (bg_world b)).
  - by rewrite lookup_insert_eq.
  - by rewrite delete_insert_eq, insert_delete_eq.
  - case_decide; [|done].
    change (after (do_await console_log _ in performBackup t0 t1) ?w)
      with (after (performBackup t0 t1)
              (after (console_log "Performing initial backup on install...") w)).
    rewrite performBackup_run. case_decide; [done|]. simpl.
    by rewrite lookup_insert_ne.
  - intros Hr. by rewrite decide_False.
  - intros Hr. rewrite decide_True by done.
    change (after (do_await console_log _ in performBackup t0 t1) ?w)
      with (after (performBackup t0 t1)
              (after (console_log "Performing initial backup on install...") w)).
    rewrite !performBackup_run.
    repeat case_decide; done.
Qed.

(** * The popup *)

Lemma elem_of_filteredTabs type tabs tab :
  tab ∈ Popup.filteredTabs type tabs ↔
  tab ∈ tabs ∧ Popup.has_savable_url tab
  ∧ (type = "inactive" → ChromeTab.discarded tab = true).
Proof.
  unfold Popup.filteredTabs. case_decide as Ht.
  - rewrite !list_elem_of_filter. tauto.
  - rewrite list_elem_of_filter. tauto.
Qed.

Lemma has_savable_url_tabData tab :
  Popup.has_savable_url tab →
  ChromeTab.url tab = Some (ToSave.url (Popup.tabData tab)) ∧
  ToSave.url (Popup.tabData tab) ≠ "" ∧
  String.prefix "chrome://newtab" (ToSave.url (Popup.tabData tab)) = false.
Proof.
  unfold Popup.has_savable_url, Popup.tabData. simpl.
  destruct (ChromeTab.url tab) as [u|]; simpl; [|done]. by intros [??].
Qed.


(** The popup when at least one tab is to be saved. *)
Lemma handleSaveTabs_some type query now random p :
  let closing := Popup.filteredTabs type (query (Popup.buildTabsQuery type)) in
  closing ≠ [] →
  Popup.handleSaveTabs type query now random p =
    {| Popup.world :=
         after (do_await console_log
                   ("Successfully saved " +:+ pretty (length closing)
                    +:+ " tabs.") in
                console_log
                   ("Closed " +:+ pretty (length closing) +:+ " tabs."))
           (after (saveTabs now random (Popup.tabData <$> closing))
              (Popup.world p));
       Popup.removed := Popup.removed p ++ [ChromeTab.id <$> closing];
       Popup.loading := None |}.
Proof.
  intros closing Hne. unfold Popup.handleSaveTabs. fold closing.
  assert (0 < length closing)%nat by (destruct closing; [done|simpl; lia]).
  rewrite !length_fmap, !decide_True by done. done.
Qed.

Lemma handleSaveTabs_none type query now random p :
  Popup.filteredTabs type (query (Popup.buildTabsQuery type)) = [] →
  Popup.handleSaveTabs type query now random p =
    {| Popup.world :=
         after (console_log ("No tabs to save for type: " +:+ type))
           (Popup.world p);
       Popup.removed := Popup.removed p;
       Popup.loading := None |}.
Proof.
  intros Hnil. unfold Popup.handleSaveTabs. rewrite Hnil. done.
Qed.


(** X13: the popup closes no tab whose url is not stored.  The one
    [chrome.tabs.remove] call closes the tabs that passed the filters, all
    of them, and for each of them a record with its url is in the store
    when the call is made; when no tab passed, no tab is closed. *)
Theorem handleSaveTabs_closes_only_stored type query now random p :
  let p' := Popup.handleSaveTabs type query now random p in
  let closing := Popup.filteredTabs type (query (Popup.buildTabsQuery type)) in
  Popup.removed p'
  = Popup.removed p
    ++ (if decide (closing = []) then [] else [ChromeTab.id <$> closing]) ∧
  Forall (λ tab, ∃ r, r ∈ stored (Popup.world p')
                      ∧ ChromeTab.url tab = Some (url r)) closing ∧
  Popup.loading p' = None.
Proof.
  intros p' closing. unfold p'.
  destruct (decide (closing = [])) as [Hnil|Hne].
  - rewrite handleSaveTabs_none by done. simpl. rewrite Hnil.
    by rewrite app_nil_r.
  - rewrite handleSaveTabs_some by done. fold closing. simpl.
    split_and!; [done| |done].
    apply Forall_forall. intros tab Htab.
    pose proof (saveTabs_urls_known now random (Popup.tabData <$> closing)
                  (Popup.world p)) as Hk.
    eapply Forall_forall in Hk; [|by apply list_elem_of_fmap_2].
    apply Exists_exists in Hk as (r & Hr & Hurl).
    exists r. split; [exact Hr|].
    apply elem_of_filteredTabs in Htab as (_ & Hsav & _).
    apply has_savable_url_tabData in Hsav as [-> _]. by rewrite Hurl.
Qed.

(** X14: when no tab of the query result has a url worth saving (no url,
    an empty url, or a new-tab page), the popup makes no storage call,
    closes no tab and only logs that there was nothing to save. *)
Theorem handleSaveTabs_nothing_to_save type query now random p :
  Forall (λ tab, ¬ Popup.has_savable_url tab)
    (query (Popup.buildTabsQuery type)) →
  let p' := Popup.handleSaveTabs type query now random p in
  local (Popup.world p') = local (Popup.world p) ∧
  calls (Popup.world p') = calls (Popup.world p) ∧
  Popup.removed p' = Popup.removed p ∧
  console (Popup.world p')
  = console (Popup.world p) ++ ["No tabs to save for type: " +:+ type].
Proof.
  intros Hnone p'. unfold p'. rewrite handleSaveTabs_none; [done|].
  apply filter_none. unfold Popup.filteredTabs.
  apply Forall_forall. intros tab Htab.
  eapply Forall_forall in Hnone; [done|].
  case_decide; [|done]. by apply list_elem_of_filter in Htab as [_ ?].
Qed.

(** X15: what the popup reports.  When some tab passed the filters, three
    lines are logged: the number of records [saveTabs] added, which counts
    the tabs whose url was not stored, and twice the number of tabs that
    passed the filters, as saved and as closed; the second number is never
    smaller than the first, and the collection grows by the first. *)
Theorem handleSaveTabs_reports type query now random p :
  let p' := Popup.handleSaveTabs type query now random p in
  let closing := Popup.filteredTabs type (query (Popup.buildTabsQuery type)) in
  let added := filter (λ tab, ¬ url_known (stored (Popup.world p))
                                   (Popup.tabData tab)) closing in
  closing ≠ [] →
  console (Popup.world p')
  = console (Popup.world p)
    ++ ["Saved " +:+ pretty (length added) +:+ " new tabs.";
        "Successfully saved " +:+ pretty (length closing) +:+ " tabs.";
        "Closed " +:+ pretty (length closing) +:+ " tabs."] ∧
  (length added ≤ length closing)%nat ∧
  length (stored (Popup.world p'))
  = (length (stored (Popup.world p)) + length added)%nat.
Proof.
  intros p' closing added Hne. unfold p'.
  rewrite handleSaveTabs_some by done. fold closing. cbn [Popup.world].
  assert (Hadded :
    length (uniqueNewTabs (getAll (Popup.world p))
              (newTabs now random (Popup.tabData <$> closing)))
    = length added).
  { rewrite uniqueNewTabs_length.
    rewrite (filter_url_known_iff _ _ _ (getAll_perm (Popup.world p))).
    unfold added. clear. induction closing as [|tab l IH]; [done|].
    rewrite fmap_cons, !filter_cons.
    repeat case_decide; simpl; try done; by rewrite IH. }
  split_and!.
  - unfold after. rewrite saveTabs_run. simpl.
    by rewrite Hadded, <-!app_assoc.
  - apply length_filter.
  - change (stored (after _ ?w)) with (stored w) at 1.
    rewrite stored_saveTabs, length_app, Hadded.
    rewrite (Permutation_length (getAll_perm (Popup.world p))). lia.
Qed.


(** * The options page *)

(** ** Pagination *)

Lemma Array_slice_length_le {A} (start : Z) (n : Z) (l : list A) :
  0 ≤ n → (length (Array_slice start (start + n) l) ≤ Z.to_nat n)%nat.
Proof.
  intros Hn. unfold Array_slice, slice_index. rewrite length_take.
  repeat case_decide; lia.
Qed.

Lemma take_min_length {A} (n : nat) (l : list A) :
  take (n `min` length l) l = take n l.
Proof.
  destruct (decide (n ≤ length l)%nat).
  - by rewrite Nat.min_l.
  - rewrite Nat.min_r by lia. by rewrite !take_ge by lia.
Qed.

(** From page one on, a page is the next [ITEMS_PER_PAGE] items. *)
Lemma Array_slice_page {A} (i : nat) (l : list A) :
  Array_slice (Z.of_nat i * ITEMS_PER_PAGE)
    (Z.of_nat i * ITEMS_PER_PAGE + ITEMS_PER_PAGE) l
  = take 20 (drop (20 * i) l).
Proof.
  unfold Array_slice, slice_index, ITEMS_PER_PAGE.
  rewrite !decide_False by lia.
  destruct (decide (20 * i ≤ length l)%nat) as [Hle|Hgt].
  - replace (Z.to_nat (Z.min (Z.of_nat i * 20) (Z.of_nat (length l))))
      with (20 * i)%nat by lia.
    rewrite <-(take_min_length 20 (drop (20 * i) l)), length_drop.
    f_equal. lia.
  - replace (Z.to_nat (Z.min (Z.of_nat i * 20) (Z.of_nat (length l))))
      with (length l) by lia.
    rewrite !drop_ge by lia. by rewrite !take_nil.
Qed.

Lemma paginatedTabs_page st (i : nat) :
  Options.currentPage st = Z.of_nat i + 1 →
  Options.paginatedTabs st = take 20 (drop (20 * i) (Options.filteredTabs st)).
Proof.
  intros Hp. unfold Options.paginatedTabs. rewrite Hp.
  replace (Z.of_nat i + 1 - 1) with (Z.of_nat i) by lia.
  apply Array_slice_page.
Qed.

Lemma concat_pages {A} (n : nat) (l : list A) :
  concat ((λ i, take 20 (drop (20 * i) l)) <$> seq 0 n) = take (20 * n) l.
Proof.
  induction n as [|n IH]; [by rewrite Nat.mul_0_r, take_0|].
  rewrite seq_S, fmap_app, concat_app, IH. simpl.
  rewrite app_nil_r, take_take_drop. f_equal. lia.
Qed.

Lemma pageCount_bounds st :
  ITEMS_PER_PAGE * (Options.pageCount st - 1)
  < Z.of_nat (length (Options.filteredTabs st))
  ≤ ITEMS_PER_PAGE * Options.pageCount st.
Proof.
  unfold Options.pageCount, Math_ceil_div, ITEMS_PER_PAGE.
  pose proof (Z.div_mod (Z.of_nat (length (Options.filteredTabs st)) + 20 - 1)
                20 ltac:(lia)).
  pose proof (Z.mod_pos_bound
                (Z.of_nat (length (Options.filteredTabs st)) + 20 - 1)
                20 ltac:(lia)).
  lia.
Qed.

(** X17: the pages partition the results.  Going through the pages from 1
    to [pageCount] shows every filtered tab exactly once, in order. *)
Theorem pages_partition_results st :
  concat ((λ page, Options.paginatedTabs (Options.handlePageChange page st))
            <$> seqZ 1 (Options.pageCount st))
  = Options.filteredTabs st.
Proof.
  pose proof (pageCount_bounds st) as Hb. unfold ITEMS_PER_PAGE in Hb.
  unfold seqZ. rewrite <-list_fmap_compose.
  erewrite list_fmap_ext; [rewrite concat_pages|].
  - apply take_ge. lia.
  - intros j i _. simpl.
    by rewrite (paginatedTabs_page _ i) by (simpl; lia).
Qed.

(** X18: page sizes.  No page shows more than [ITEMS_PER_PAGE] tabs;
    [pageCount] is the least number of pages of that size that hold the
    results, zero exactly when there are none; every page before the last
    is full, the last page is not empty, and a page after the last, like
    page zero, is empty. *)
Theorem page_sizes st :
  (length (Options.paginatedTabs st) ≤ 20)%nat ∧
  ITEMS_PER_PAGE * (Options.pageCount st - 1)
  < Z.of_nat (length (Options.filteredTabs st))
  ≤ ITEMS_PER_PAGE * Options.pageCount st ∧
  (Options.pageCount st = 0 ↔ Options.filteredTabs st = []) ∧
  (1 ≤ Options.currentPage st < Options.pageCount st →
     length (Options.paginatedTabs st) = 20%nat) ∧
  (1 ≤ Options.currentPage st ∧
   Options.currentPage st = Options.pageCount st →
     (1 ≤ length (Options.paginatedTabs st))%nat) ∧
  (Options.pageCount st < Options.currentPage st →
     Options.paginatedTabs st = []) ∧
  (Options.currentPage st = 0 → Options.paginatedTabs st = []).
Proof.
  pose proof (pageCount_bounds st) as Hb. unfold ITEMS_PER_PAGE in Hb.
  assert (Hpage : ∀ i : nat, Options.currentPage st = Z.of_nat i + 1 →
            length (Options.paginatedTabs st)
            = (20 `min` (length (Options.filteredTabs st) - 20 * i))%nat).
  { intros i Hi. rewrite (paginatedTabs_page st i Hi).
    by rewrite length_take, length_drop. }
  split; [apply (Array_slice_length_le _ 20); lia|].
  split; [apply pageCount_bounds|].
  split_and!.
  - split; intros H.
    + apply length_zero_iff_nil. lia.
    + rewrite H in Hb. simpl in Hb. lia.
  - intros [H1 H2].
    rewrite (Hpage (Z.to_nat (Options.currentPage st - 1))) by lia. lia.
  - intros [H1 H2].
    rewrite (Hpage (Z.to_nat (Options.currentPage st - 1))) by lia. lia.
  - intros Hgt. apply length_zero_iff_nil.
    assert (0 ≤ Options.pageCount st) by lia.
    rewrite (Hpage (Z.to_nat (Options.currentPage st - 1))) by lia. lia.
  - intros H0. unfold Options.paginatedTabs, Array_slice, slice_index.
    rewrite H0. unfold ITEMS_PER_PAGE. simpl.
    apply length_zero_iff_nil. rewrite length_take.
    repeat case_decide; lia.
Qed.

(** ** Search *)

Lemma string_app_nil_l (s : string) : "" +:+ s = s.
Proof. reflexivity. Qed.

Lemma string_app_cons (c : ascii) (s1 s2 : string) :
  String c s1 +:+ s2 = String c (s1 +:+ s2).
Proof. reflexivity. Qed.

Lemma prefix_occurs (t s : string) :
  String.prefix t s = true ↔ ∃ b, s = t +:+ b.
Proof.
  revert s. induction t as [|c t IH]; intros s.
  - split; [|by destruct s]. intros _. by exists s.
  - destruct s as [|d s]; simpl.
    + split; [done|]. intros [b Hb]. by rewrite string_app_cons in Hb.
    + destruct (ascii_dec c d) as [->|Hne].
      * rewrite IH. split; intros [b Hb]; exists b.
        -- by rewrite string_app_cons, Hb.
        -- rewrite string_app_cons in Hb. by injection Hb.
      * split; [done|]. intros [b Hb].
        rewrite string_app_cons in Hb. by injection Hb as -> _.
Qed.

(** [includes] is the occurrence of the search string as a substring. *)
Lemma includes_occurs (s t : string) :
  includes s t = true ↔ ∃ a b, s = a +:+ t +:+ b.
Proof.
  induction s as [|c s IH].
  - change (includes "" t) with (String.prefix t "" || false).
    rewrite orb_false_r, prefix_occurs. split.
    + intros [b Hb]. by exists "", b.
    + intros ([|c a] & b & Hab); [by exists b|].
      by rewrite string_app_cons in Hab.
  - change (includes (String c s) t)
      with (String.prefix t (String c s) || includes s t).
    rewrite orb_true_iff, prefix_occurs, IH. split.
    + intros [[b Hb]|(a & b & Hab)].
      * by exists "", b.
      * exists (String c a), b. by rewrite string_app_cons, Hab.
    + intros ([|d a] & b & Hab).
      * left. by exists b.
      * right. rewrite string_app_cons in Hab. injection Hab as -> ->.
        by exists a, b.
Qed.

Section options_page.
Context `{JsString}.

Lemma search_effect_blank st :
  trim (toLowerCase (Options.searchTerm st)) = "" →
  Options.search_effect st
  = {| Options.allTabs := Options.allTabs st;
       Options.filteredTabs := Options.allTabs st;
       Options.searchTerm := Options.searchTerm st;
       Options.currentPage := Options.currentPage st;
       Options.loading := Options.loading st;
       Options.error := Options.error st |}.
Proof. intros Hb. unfold Options.search_effect. by rewrite decide_True. Qed.

Lemma search_effect_term st :
  trim (toLowerCase (Options.searchTerm st)) ≠ "" →
  Options.search_effect st
  = {| Options.allTabs := Options.allTabs st;
       Options.filteredTabs :=
         filter (Options.matches (trim (toLowerCase (Options.searchTerm st))))
           (Options.allTabs st);
       Options.searchTerm := Options.searchTerm st;
       Options.currentPage := 1;
       Options.loading := Options.loading st;
       Options.error := Options.error st |}.
Proof. intros Hb. unfold Options.search_effect. by rewrite decide_False. Qed.

Lemma search_effect_settled st : Options.settled (Options.search_effect st).
Proof.
  unfold Options.settled.
  destruct (decide (trim (toLowerCase (Options.searchTerm st)) = ""))
    as [Hb|Hb].
  - rewrite (search_effect_blank st Hb). by rewrite search_effect_blank.
  - rewrite (search_effect_term st Hb). by rewrite search_effect_term.
Qed.

(** The search results depend on the term and on [allTabs] only. *)
Lemma search_effect_filteredTabs st1 st2 :
  Options.allTabs st1 = Options.allTabs st2 →
  Options.searchTerm st1 = Options.searchTerm st2 →
  Options.filteredTabs (Options.search_effect st1)
  = Options.filteredTabs (Options.search_effect st2).
Proof.
  intros Ha Ht. unfold Options.search_effect. rewrite Ha, Ht.
  by case_decide.
Qed.

(** X19: the search.  The results are a subsequence of [allTabs], which the
    search never changes.  A term that is blank once lower-cased and trimmed
    shows all tabs and keeps the page; any other term shows exactly the
    tabs whose lower-cased title or url contains the lower-cased, trimmed
    term as a substring, and goes back to page 1. *)
Theorem search_effect_results st :
  let term := trim (toLowerCase (Options.searchTerm st)) in
  let st' := Options.search_effect st in
  Options.allTabs st' = Options.allTabs st ∧
  Options.filteredTabs st' `sublist_of` Options.allTabs st ∧
  (term = "" →
     Options.filteredTabs st' = Options.allTabs st ∧
     Options.currentPage st' = Options.currentPage st) ∧
  (term ≠ "" →
     Options.currentPage st' = 1 ∧
     ∀ tab, tab ∈ Options.filteredTabs st' ↔
       tab ∈ Options.allTabs st ∧
       ((∃ a b, toLowerCase (title tab) = a +:+ term +:+ b) ∨
        (∃ a b, toLowerCase (url tab) = a +:+ term +:+ b))).
Proof.
  intros term st'. unfold st', term. split_and!.
  - unfold Options.search_effect. by case_decide.
  - unfold Options.search_effect. case_decide; simpl; [done|].
    apply sublist_filter.
  - intros Hb. by rewrite search_effect_blank.
  - intros Hb. rewrite search_effect_term by done. simpl.
    split; [done|]. intros tab.
    rewrite list_elem_of_filter. unfold Options.matches.
    rewrite orb_true_iff, !includes_occurs. tauto.
Qed.

Lemma handleDelete_run tabId st w :
  Options.handleDelete tabId st w
  = (Options.search_effect
       {| Options.allTabs :=
            filter (λ tab, id tab ≠ tabId) (Options.allTabs st);
          Options.filteredTabs := Options.filteredTabs st;
          Options.searchTerm := Options.searchTerm st;
          Options.currentPage := Options.currentPage st;
          Options.loading := Options.loading st;
          Options.error := Options.error st |},
     after (deleteTab tabId) w).
Proof.
  unfold Options.handleDelete, await, after, resolve.
  by destruct (deleteTab tabId w).
Qed.

(** X20: the page follows the store.  [fetchTabs] brings the page in
    sync with the store from any state, without writing: [allTabs] is what
    [getSavedTabs] returns and the results are those of the current term.
    From a page in sync, [handleDelete] leaves it in sync with the store
    [deleteTab] leaves, its results being the former results without the
    deleted [id]; a new search term and a page change keep it in sync. *)
Theorem options_page_stays_in_sync st w tabId value page :
  Options.in_sync (Options.fetchTabs st w).1 (Options.fetchTabs st w).2 ∧
  (Options.fetchTabs st w).2 = w ∧
  (Options.in_sync st w →
     Options.in_sync (Options.handleDelete tabId st w).1
       (Options.handleDelete tabId st w).2 ∧
     (Options.handleDelete tabId st w).2 = after (deleteTab tabId) w ∧
     Options.filteredTabs (Options.handleDelete tabId st w).1
     = filter (λ tab, id tab ≠ tabId) (Options.filteredTabs st) ∧
     Options.in_sync (Options.setSearchTerm value st) w ∧
     Options.in_sync (Options.handlePageChange page st) w).
Proof.
  split_and!.
  - split; [|apply search_effect_settled].
    unfold Options.fetchTabs, await, resolve. simpl.
    unfold Options.search_effect. by case_decide.
  - done.
  - intros [Hall Hset]. rewrite handleDelete_run. cbn [fst snd]. split_and!.
    + split; [|apply search_effect_settled].
      rewrite getAll_deleteTab, <-Hall.
      unfold Options.search_effect. by case_decide.
    + done.
    + unfold Options.settled in Hset. rewrite Hset.
      unfold Options.search_effect. simpl.
      case_decide; simpl; [done|].
      rewrite !list_filter_filter. apply list_filter_iff. tauto.
    + unfold Options.setSearchTerm. case_decide; [done|].
      split; [|apply search_effect_settled].
      rewrite <-Hall. unfold Options.search_effect. by case_decide.
    + split; [done|]. unfold Options.settled in *. simpl.
      rewrite Hset. by apply search_effect_filteredTabs.
Qed.

(** X21: a deletion can leave an empty page.  With a blank search term the
    page number is kept by [handleDelete]; so when the deletion leaves
    exactly as many tabs as fill the pages before the current one, the
    current page, now after the last, shows no tab although there are
    tabs. *)
Theorem handleDelete_can_empty_the_page tabId st w :
  trim (toLowerCase (Options.searchTerm st)) = "" →
  2 ≤ Options.currentPage st →
  Z.of_nat (length (filter (λ tab, id tab ≠ tabId) (Options.allTabs st)))
  = ITEMS_PER_PAGE * (Options.currentPage st - 1) →
  let st' := (Options.handleDelete tabId st w).1 in
  Options.currentPage st' = Options.currentPage st ∧
  Options.filteredTabs st' ≠ [] ∧
  Options.pageCount st' = Options.currentPage st - 1 ∧
  Options.paginatedTabs st' = [].
Proof.
  intros Hb Hp Hlen st'. unfold st'.
  rewrite handleDelete_run. cbn [fst].
  rewrite search_effect_blank by done.
  set (st1 := {| Options.allTabs := _ |}).
  assert (Hf : Options.filteredTabs st1
               = filter (λ tab, id tab ≠ tabId) (Options.allTabs st)) by done.
  assert (Hc : Options.currentPage st1 = Options.currentPage st) by done.
  pose proof (pageCount_bounds st1) as Hbounds.
  rewrite Hf, Hlen in Hbounds. unfold ITEMS_PER_PAGE in *.
  assert (Hcount : Options.pageCount st1 = Options.currentPage st - 1) by lia.
  split_and!; [done| |done|].
  - rewrite Hf. intros Hnil. rewrite Hnil in Hlen. simpl in Hlen. lia.
  - unfold Options.paginatedTabs, Array_slice, slice_index.
    rewrite Hc, Hf. apply length_zero_iff_nil. rewrite length_take.
    unfold ITEMS_PER_PAGE. repeat case_decide; lia.
Qed.

End options_page.

(** * Concrete instances *)

Lemma urls_stay_distinct_witness :
  NoDup (url <$> stored (world_with [tab_a; tab_b])) ∧
  Forall batch_urls_distinct sample_ops ∧
  NoDup (url <$> stored (after (run_ops sample_ops)
                           (world_with [tab_a; tab_b]))).
Proof.
  assert (H1 : NoDup (url <$> stored (world_with [tab_a; tab_b])))
    by by_evaluation.
  assert (H2 : Forall batch_urls_distinct sample_ops) by by_evaluation.
  split_and!; [exact H1|exact H2|].
  exact (proj1 (urls_stay_distinct sample_ops _ H1 H2)).
Defined.

Lemma ids_stay_distinct_witness :
  NoDup (save_times sample_ops) ∧
  Forall (λ now, 0 ≤ now) (save_times sample_ops) ∧
  NoDup (id <$> getAll (after (run_ops sample_ops) empty_world)).
Proof.
  assert (H1 : NoDup (save_times sample_ops)) by by_evaluation.
  assert (H2 : Forall (λ now, 0 ≤ now) (save_times sample_ops))
    by by_evaluation.
  split_and!; [exact H1|exact H2|].
  exact (proj2 (ids_stay_distinct sample_ops H1 H2)).
Defined.

Lemma stored_stays_newest_first_witness :
  StronglySorted newest_first (stored (world_with [tab_a; tab_c; tab_b])) ∧
  Forall (λ r, savedAt r ≤ 5) (stored (world_with [tab_a; tab_c; tab_b])) ∧
  StronglySorted Z.le (5 :: save_times sample_ops) ∧
  getAll (after (run_ops sample_ops) (world_with [tab_a; tab_c; tab_b]))
  = stored (after (run_ops sample_ops) (world_with [tab_a; tab_c; tab_b])).
Proof.
  assert (H1 : StronglySorted newest_first
                 (stored (world_with [tab_a; tab_c; tab_b])))
    by by_evaluation.
  assert (H2 : Forall (λ r, savedAt r ≤ 5)
                 (stored (world_with [tab_a; tab_c; tab_b])))
    by by_evaluation.
  assert (H3 : StronglySorted Z.le (5 :: save_times sample_ops))
    by by_evaluation.
  split_and!; [exact H1|exact H2|exact H3|].
  exact (proj2 (stored_stays_newest_first sample_ops 5 _ H1 H2 H3)).
Defined.

Lemma saveTabs_then_deleteTab_restores_witness :
  Forall (λ r, id r ≠ make_id 9 0 (some_suffix 0%nat))
    (stored (world_with [tab_b; tab_a])) ∧
  getAll (after (deleteTab (make_id 9 0 (some_suffix 0%nat)))
            (after (saveTabs 9 some_suffix [cand_d])
               (world_with [tab_b; tab_a])))
  = getAll (world_with [tab_b; tab_a]).
Proof.
  assert (H1 : Forall (λ r, id r ≠ make_id 9 0 (some_suffix 0%nat))
                 (stored (world_with [tab_b; tab_a]))) by by_evaluation.
  split; [exact H1|].
  exact (saveTabs_then_deleteTab_restores 9 some_suffix cand_d _ H1).
Defined.

Lemma run_ops_other_keys_witness :
  BACKUP_STORAGE_KEY ≠ STORAGE_KEY ∧
  local (after (run_ops sample_ops) (world_with_backup [tab_a] [tab_b]))
    !! BACKUP_STORAGE_KEY
  = local (world_with_backup [tab_a] [tab_b]) !! BACKUP_STORAGE_KEY.
Proof.
  assert (H1 : BACKUP_STORAGE_KEY ≠ STORAGE_KEY) by by_evaluation.
  split; [exact H1|].
  exact (run_ops_other_keys sample_ops BACKUP_STORAGE_KEY _ H1).
Defined.

Lemma backup_survives_clearAllTabs_witness :
  stored (world_with [tab_b; tab_a]) ≠ [] ∧
  local (foldl (λ w' ts, after (performBackup ts.1 ts.2) w')
           (after clearAllTabs
              (after (performBackup "t0" "t1") (world_with [tab_b; tab_a])))
           [("t2", "t3"); ("t4", "t5")])
    !! BACKUP_STORAGE_KEY
  = Some (getAll (world_with [tab_b; tab_a])).
Proof.
  assert (H1 : stored (world_with [tab_b; tab_a]) ≠ []).
  { vm_compute. discriminate. }
  split; [exact H1|].
  exact (proj1 (backup_survives_clearAllTabs "t0" "t1"
                  [("t2", "t3"); ("t4", "t5")] _ H1)).
Defined.

Lemma listeners_backup_only_when_due_witness :
  ("otherAlarm" ≠ BACKUP_ALARM_NAME ∧
   onAlarm "otherAlarm" "t0" "t1" (bg_world background_start)
   = (undefined, bg_world background_start)) ∧
  ("update" ≠ "install" ∧
   calls (bg_world (onInstalled "update" "t0" "t1" background_start))
   = calls (bg_world background_start)) ∧
  ("install" = "install" ∧
   local (bg_world (onInstalled "install" "t0" "t1" background_start))
   = local (after (performBackup "t0" "t1") (bg_world background_start))).
Proof.
  assert (H1 : "otherAlarm" ≠ BACKUP_ALARM_NAME) by by_evaluation.
  assert (H2 : "update" ≠ "install") by by_evaluation.
  split_and!; [exact H1| |exact H2| |reflexivity|].
  - exact (proj1 (proj1 (listeners_backup_only_when_due "otherAlarm"
                           "update" "t0" "t1" background_start) H1)).
  - exact (proj2 (proj1 (proj2 (proj2 (proj2 (proj2 (proj2
             (listeners_backup_only_when_due "otherAlarm" "update"
                "t0" "t1" background_start)))))) H2)).
  - exact (proj2 (proj2 (proj2 (proj2 (proj2 (proj2
             (listeners_backup_only_when_due "otherAlarm" "install"
                "t0" "t1" background_start)))))) eq_refl).
Defined.

Lemma handleSaveTabs_nothing_to_save_witness :
  Forall (λ tab, ¬ Popup.has_savable_url tab)
    (query_nothing (Popup.buildTabsQuery "all")) ∧
  calls (Popup.world
           (Popup.handleSaveTabs "all" query_nothing 9 some_suffix popup_start))
  = calls (Popup.world popup_start).
Proof.
  assert (H1 : Forall (λ tab, ¬ Popup.has_savable_url tab)
                 (query_nothing (Popup.buildTabsQuery "all")))
    by by_evaluation.
  split; [exact H1|].
  exact (proj1 (proj2 (handleSaveTabs_nothing_to_save "all" query_nothing
                         9 some_suffix popup_start H1))).
Defined.

Lemma handleSaveTabs_reports_witness :
  Popup.filteredTabs "all" (query_some (Popup.buildTabsQuery "all")) ≠ [] ∧
  console (Popup.world
             (Popup.handleSaveTabs "all" query_some 9 some_suffix popup_start))
  = ["Saved 1 new tabs."; "Successfully saved 2 tabs."; "Closed 2 tabs."].
Proof.
  assert (H1 : Popup.filteredTabs "all"
                 (query_some (Popup.buildTabsQuery "all")) ≠ []).
  { vm_compute. discriminate. }
  split; [exact H1|].
  pose proof (proj1 (handleSaveTabs_reports "all" query_some 9 some_suffix
                       popup_start H1)) as H.
  rewrite H. vm_compute. reflexivity.
Defined.

Lemma page_sizes_witness :
  (1 ≤ Options.currentPage (options_with twenty_one_tabs "" 1)
     < Options.pageCount (options_with twenty_one_tabs "" 1) ∧
   length (Options.paginatedTabs (options_with twenty_one_tabs "" 1))
   = 20%nat) ∧
  (Options.pageCount (options_with twenty_one_tabs "" 3)
     < Options.currentPage (options_with twenty_one_tabs "" 3) ∧
   Options.paginatedTabs (options_with twenty_one_tabs "" 3) = []).
Proof.
  assert (H1 : 1 ≤ Options.currentPage (options_with twenty_one_tabs "" 1)
               < Options.pageCount (options_with twenty_one_tabs "" 1))
    by by_evaluation.
  assert (H2 : Options.pageCount (options_with twenty_one_tabs "" 3)
               < Options.currentPage (options_with twenty_one_tabs "" 3))
    by by_evaluation.
  split; (split; [assumption|]).
  - exact (proj1 (proj2 (proj2 (proj2
             (page_sizes (options_with twenty_one_tabs "" 1)))) ) H1).
  - exact (proj1 (proj2 (proj2 (proj2 (proj2 (proj2
             (page_sizes (options_with twenty_one_tabs "" 3))))))) H2).
Defined.

Lemma search_effect_results_witness :
  (@trim ascii_strings (@toLowerCase ascii_strings "   ") = "" ∧
   Options.filteredTabs
     (@Options.search_effect ascii_strings
        (options_with [tab_a; tab_b; tab_c] "   " 2))
   = [tab_a; tab_b; tab_c]) ∧
  (@trim ascii_strings (@toLowerCase ascii_strings "  B.COM ") ≠ "" ∧
   Options.currentPage
     (@Options.search_effect ascii_strings
        (options_with [tab_a; tab_b; tab_c] "  B.COM " 2))
   = 1).
Proof.
  assert (H1 : @trim ascii_strings (@toLowerCase ascii_strings "   ") = "")
    by by_evaluation.
  assert (H2 : @trim ascii_strings (@toLowerCase ascii_strings "  B.COM ")
               ≠ "") by by_evaluation.
  split; (split; [assumption|]).
  - exact (proj1 (proj1 (proj2 (proj2
             (@search_effect_results ascii_strings
                (options_with [tab_a; tab_b; tab_c] "   " 2)))) H1)).
  - exact (proj1 (proj2 (proj2 (proj2
             (@search_effect_results ascii_strings
                (options_with [tab_a; tab_b; tab_c] "  B.COM " 2)))) H2)).
Defined.

Lemma options_page_stays_in_sync_witness :
  @Options.in_sync ascii_strings
    (options_with [tab_a; tab_c; tab_b] "" 1)
    (world_with [tab_b; tab_a; tab_c]) ∧
  Options.filteredTabs
    (@Options.handleDelete ascii_strings "5-1-zz81c"
       (options_with [tab_a; tab_c; tab_b] "" 1)
       (world_with [tab_b; tab_a; tab_c])).1
  = filter (λ tab, id tab ≠ "5-1-zz81c") [tab_a; tab_c; tab_b].
Proof.
  assert (H1 : @Options.in_sync ascii_strings
                 (options_with [tab_a; tab_c; tab_b] "" 1)
                 (world_with [tab_b; tab_a; tab_c])).
  { split; vm_compute; reflexivity. }
  split; [exact H1|].
  exact (proj1 (proj2 (proj2 (proj2 (proj2
           (@options_page_stays_in_sync ascii_strings
              (options_with [tab_a; tab_c; tab_b] "" 1)
              (world_with [tab_b; tab_a; tab_c]) "5-1-zz81c" "b" 1)) H1)))).
Defined.

Lemma handleDelete_can_empty_the_page_witness :
  @trim ascii_strings (@toLowerCase ascii_strings "") = "" ∧
  2 ≤ Options.currentPage (options_with twenty_one_tabs "" 2) ∧
  Options.paginatedTabs
    (@Options.handleDelete ascii_strings "7-20-a9b8c7d"
       (options_with twenty_one_tabs "" 2) (world_with twenty_one_tabs)).1
  = [] ∧
  Options.filteredTabs
    (@Options.handleDelete ascii_strings "7-20-a9b8c7d"
       (options_with twenty_one_tabs "" 2) (world_with twenty_one_tabs)).1
  ≠ [].
Proof.
  assert (H1 : @trim ascii_strings (@toLowerCase ascii_strings "") = "")
    by reflexivity.
  assert (H2 : 2 ≤ Options.currentPage (options_with twenty_one_tabs "" 2))
    by by_evaluation.
  assert (H3 : Z.of_nat (length (filter (λ tab, id tab ≠ "7-20-a9b8c7d")
                 (Options.allTabs (options_with twenty_one_tabs "" 2))))
               = ITEMS_PER_PAGE
                 * (Options.currentPage (options_with twenty_one_tabs "" 2)
                    - 1)).
  { vm_compute. reflexivity. }
  pose proof (@handleDelete_can_empty_the_page ascii_strings "7-20-a9b8c7d"
                (options_with twenty_one_tabs "" 2)
                (world_with twenty_one_tabs) H1 H2 H3) as H.
  simpl in H. destruct H as (_ & Hne & _ & Hnil).
  split_and!; [exact H1|exact H2|exact Hnil|exact Hne].
Defined.
